(** * ShellBuddy: the parsers, the command executor and the turn loop of
    [shellbuddy.py], embedded in Rocq and checked against the specification.

    Python strings are sequences of Unicode code points; they are modelled as
    lists of code points ([N]).  The string methods used by the program
    ([strip], [startswith], [find], [split], [splitlines], [join], [lower],
    [int]) are written out below with the behaviour CPython gives them. *)

From Stdlib Require Import ZArith NArith Ascii String Lia.
From stdpp Require Import base option list sets gmap sorting pretty.

Local Open Scope N_scope.
Set Warnings "-clear-no-such-hyp".

(** ** Python strings *)

Abbreviation char := N (only parsing).
Abbreviation str := (list N) (only parsing).

(** An ASCII character and an ASCII literal as code points. *)
Definition ch (a : ascii) : char := N_of_ascii a.
Definition lit (s : string) : str := ch <$> list_ascii_of_string s.

(** The parts of Python's view of Unicode and of the interpreter that the
    source relies on but does not contain: the decimal value of a non-ASCII
    digit ([Py_UNICODE_TODECIMAL]), the lower-case mapping of a non-ASCII
    character at a position of a string (it depends on the context for the
    final sigma), and [sys.get_int_max_str_digits()] (0 switches the limit
    off).  ASCII characters are handled concretely below. *)
Class Interpreter := {
  unicode_decimal : char → option nat;
  unicode_lower : str → nat → str;
  int_max_str_digits : nat
}.

(** [str.isspace] on one code point: the characters [str.strip()] removes. *)
Definition isspace (c : char) : bool :=
  (9 <=? c) && (c <=? 13) || (28 <=? c) && (c <=? 32)
  || (c =? 0x85) || (c =? 0xA0) || (c =? 0x1680)
  || (0x2000 <=? c) && (c <=? 0x200A)
  || (c =? 0x2028) || (c =? 0x2029) || (c =? 0x202F) || (c =? 0x205F)
  || (c =? 0x3000).

(** The line boundaries of [str.splitlines]: \n \v \f \r, FS GS RS, NEL, LS, PS. *)
Definition islinebreak (c : char) : bool :=
  (10 <=? c) && (c <=? 13) || (28 <=? c) && (c <=? 30)
  || (c =? 0x85) || (c =? 0x2028) || (c =? 0x2029).

Fixpoint lstrip (s : str) : str :=
  match s with
  | [] => []
  | c :: t => if isspace c then lstrip t else s
  end.

Fixpoint rstrip (s : str) : str :=
  match s with
  | [] => []
  | c :: t =>
      match rstrip t with
      | [] => if isspace c then [] else [c]
      | t' => c :: t'
      end
  end.

(** [s.strip()] *)
Definition strip (s : str) : str := lstrip (rstrip s).

(** [s.startswith(p)] *)
Fixpoint startswith (p s : str) : bool :=
  match p, s with
  | [], _ => true
  | _ :: _, [] => false
  | a :: p', b :: s' => (a =? b) && startswith p' s'
  end.

(** [s.find(needle)]: the index of the first occurrence, [None] for -1. *)
Fixpoint find_from (i : nat) (needle s : str) : option nat :=
  if startswith needle s then Some i
  else match s with
       | [] => None
       | _ :: t => find_from (S i) needle t
       end.

Definition find (needle s : str) : option nat := find_from 0 needle s.

(** [s.split(sep)] for a non-empty separator: [cur] is the piece being read,
    [skip] counts the characters of a separator still to be passed over. *)
Fixpoint split_aux (sep : str) (skip : nat) (cur : str) (s : str) : list str :=
  match s with
  | [] => [cur]
  | c :: t =>
      match skip with
      | S k => split_aux sep k cur t
      | O =>
          if startswith sep s
          then cur :: split_aux sep (length sep - 1) [] t
          else split_aux sep 0 (cur ++ [c]) t
      end
  end.

Definition split (sep s : str) : list str := split_aux sep 0 [] s.

(** [sep.join(pieces)] *)
Fixpoint join (sep : str) (pieces : list str) : str :=
  match pieces with
  | [] => []
  | [p] => p
  | p :: ps => p ++ sep ++ join sep ps
  end.

(** [s.splitlines()]: \r\n is one boundary, and a final boundary does not
    open a last empty line. *)
Fixpoint splitlines_aux (cur : str) (s : str) : list str :=
  match s with
  | [] => match cur with [] => [] | _ => [cur] end
  | c :: t =>
      if c =? 13 then
        match t with
        | c' :: t' =>
            if c' =? 10 then cur :: splitlines_aux [] t'
            else cur :: splitlines_aux [] t
        | [] => cur :: splitlines_aux [] t
        end
      else if islinebreak c then cur :: splitlines_aux [] t
      else splitlines_aux (cur ++ [c]) t
  end.

Definition splitlines (s : str) : list str := splitlines_aux [] s.

Section WithInterpreter.
Context `{Interpreter}.

(** The decimal value of a character, as [int] sees it. *)
Definition decimal (c : char) : option nat :=
  if (48 <=? c) && (c <=? 57) then Some (N.to_nat (c - 48))
  else if c <? 128 then None
  else unicode_decimal c.

(** The digits of an integer literal: single underscores are allowed
    between digits only.  Returns the value and the number of digits. *)
Fixpoint int_digits (acc : Z) (ndigits : nat) (prev_digit : bool) (s : str)
  : option (Z * nat) :=
  match s with
  | [] => if prev_digit then Some (acc, ndigits) else None
  | c :: t =>
      if c =? ch "_" then
        if prev_digit then int_digits acc ndigits false t else None
      else
        match decimal c with
        | Some d => int_digits (10 * acc + Z.of_nat d)%Z (S ndigits) true t
        | None => None
        end
  end.

(** The spaces [int] passes over at both ends of its argument: the
    non-ASCII spaces of [isspace] (which are first turned into blanks), but
    of the ASCII characters only \t \n \v \f \r and the blank. *)
Definition int_isspace (c : char) : bool :=
  (9 <=? c) && (c <=? 13) || (c =? 32) || (127 <=? c) && isspace c.

Fixpoint int_lstrip (s : str) : str :=
  match s with
  | [] => []
  | c :: t => if int_isspace c then int_lstrip t else s
  end.

Fixpoint int_rstrip (s : str) : str :=
  match s with
  | [] => []
  | c :: t =>
      match int_rstrip t with
      | [] => if int_isspace c then [] else [c]
      | t' => c :: t'
      end
  end.

(** [int(s)] for a string: [None] stands for the [ValueError]. *)
Definition int (s : str) : option Z :=
  let t := int_lstrip (int_rstrip s) in
  let '(sign, body) :=
    match t with
    | c :: r =>
        if c =? ch "-" then ((-1)%Z, r)
        else if c =? ch "+" then (1%Z, r)
        else (1%Z, t)
    | [] => (1%Z, t)
    end in
  match int_digits 0 0 false body with
  | Some (v, n) =>
      if (0 <? int_max_str_digits)%nat && (int_max_str_digits <? n)%nat
      then None
      else Some (sign * v)%Z
  | None => None
  end.

(** [s.lower()]: ASCII letters concretely, the rest through the tables. *)
Definition lower (s : str) : str :=
  mjoin (imap (λ i c,
    if (65 <=? c) && (c <=? 90) then [c + 32]
    else if c <? 128 then [c]
    else unicode_lower s i) s).

(** ** Selection Parser: [parse_selection] *)

(** One round of the [for part in parts] loop: the set of indices after the
    part has been looked at. *)
Definition selection_step (max_num : Z) (indices : gset Z) (part : str)
  : gset Z :=
  let part := strip part in
  if bool_decide (ch "-" ∈ part) then
    match mapM int (split (lit "-") part) with
    | Some [start; end_] =>
        if bool_decide (1 ≤ start ∧ start ≤ end_ ∧ end_ ≤ max_num)%Z
        then indices ∪ list_to_set (seqZ (start - 1) (end_ - (start - 1)))
        else indices
    | _ => indices
    end
  else
    match int part with
    | Some num =>
        if bool_decide (1 ≤ num ∧ num ≤ max_num)%Z
        then indices ∪ {[ (num - 1)%Z ]}
        else indices
    | None => indices
    end.

Definition parse_selection (selection_str : str) (max_num : Z) : list Z :=
  let parts := split (lit ",") selection_str in
  let indices := foldl (selection_step max_num) ∅ parts in
  merge_sort Z.le (elements indices).

End WithInterpreter.

(** An interpreter that knows no digits and no letters outside ASCII, with
    CPython's default limit on the digits of an integer literal. *)
Definition ascii_interpreter : Interpreter :=
  {| unicode_decimal := λ _, None;
     unicode_lower := λ s i, from_option (λ c, [c]) [] (s !! i);
     int_max_str_digits := 4300 |}.


(** ** Command Parser: [parse_ai_response] *)

Definition fence : str := Eval cbv in lit "```".
Definition fence_open : str := Eval cbv in lit "```bash".
(** The two literals of the pattern [```bash\n(.*?)\n```]. *)
Definition block_open : str := Eval cbv in fence_open ++ [10].
Definition block_close : str := Eval cbv in 10 :: lit "```".

(** [(.*?)] followed by the literal [closing], with [re.DOTALL]: the lazy
    group is tried at length 0, 1, 2, ... and the first length at which
    [closing] matches is taken.  Returns the text of the group. *)
Fixpoint lazy_until (closing : str) (s : str) : option str :=
  if startswith closing s then Some []
  else match s with
       | [] => None
       | c :: t => cons c <$> lazy_until closing t
       end.

(** The pattern matched at the start of [s]: group 1 when it matches. *)
Definition match_here (s : str) : option str :=
  if startswith block_open s
  then lazy_until block_close (drop (length block_open) s)
  else None.

(** [re.search]: the leftmost position at which the pattern matches. *)
Fixpoint re_search_from (i : nat) (s : str) : option (nat * str) :=
  match match_here s with
  | Some group1 => Some (i, group1)
  | None => match s with
            | [] => None
            | _ :: t => re_search_from (S i) t
            end
  end.

Definition re_search (text : str) : option (nat * str) :=
  re_search_from 0 text.

Definition parse_ai_response (text : str) : str * list str :=
  match re_search text with
  | Some (_, group1) =>
      let explanation := strip (hd [] (split fence_open text)) in
      let commands_str := strip group1 in
      (explanation,
       strip <$> filter (λ cmd, strip cmd ≠ []) (splitlines commands_str))
  | None => (strip text, [])
  end.

(** ** Command Executor: [execute_command] *)

(** The outcome of a call that may raise an [Exception]; [Raised] carries
    [str(e)].  [KeyboardInterrupt] and the like are not [Exception]s and
    are outside the model. *)
Inductive try (A : Type) : Type :=
  | Returned (a : A)
  | Raised (e : str).
Arguments Returned {A} a.
Arguments Raised {A} e.

Inductive stdin_mode := Inherited | DEVNULL.

(** The arguments of [subprocess.run]. *)
Record run_args := {
  args : str;
  shell : bool;
  text : bool;
  capture_output : bool;
  timeout : Z;
  stdin : stdin_mode
}.

Inductive run_outcome :=
  | Completed (stdout stderr : str)
  | TimeoutExpired
  | RunRaised (e : str).

(** The calls [execute_command] makes on its environment. *)
Inductive action : Type → Type :=
  | Expanduser (path : str) : action (try str)
  | Chdir (path : str) : action (try unit)
  | Getcwd : action (try str)
  | SubprocessRun (a : run_args) : action run_outcome.

(** A program: a result, or a call and what is done with its answer. *)
Inductive prog (A : Type) : Type :=
  | Ret (a : A)
  | Do {X : Type} (a : action X) (k : X → prog A).
Arguments Ret {A} a.
Arguments Do {A X} a k.

Definition check_mark : str := [0x2705].
Definition warning_mark : str := [0x26A0; 0xFE0F].

Definition cd_error (e : str) : str :=
  warning_mark ++ lit " Error in 'cd': " ++ e.

(** [command[3:].strip() or "~"] *)
Definition cd_target (command : str) : str :=
  match strip (drop 3 command) with [] => lit "~" | t => t end.

Definition execute_command (command : str) : prog str :=
  let command := strip command in
  if startswith (lit "cd ") command then
    let target_dir := cd_target command in
    Do (Expanduser target_dir) (λ r,
      match r with
      | Raised e => Ret (cd_error e)
      | Returned expanded_dir =>
          Do (Chdir expanded_dir) (λ r,
            match r with
            | Raised e => Ret (cd_error e)
            | Returned _ =>
                Do Getcwd (λ r,
                  match r with
                  | Raised e => Ret (cd_error e)
                  | Returned d =>
                      Ret (check_mark ++ lit " (Working directory changed to: "
                           ++ d ++ lit ")")
                  end)
            end)
      end)
  else
    Do (SubprocessRun {| args := command; shell := true; text := true;
                         capture_output := true; timeout := 30;
                         stdin := DEVNULL |}) (λ r,
      match r with
      | Completed stdout stderr =>
          let output := strip stdout ++ [10] ++ strip stderr in
          Ret (match strip output with
               | [] => check_mark ++ lit " (Command executed, no output)"
               | o => o
               end)
      | TimeoutExpired =>
          Ret (warning_mark ++ lit " Command '" ++ command
               ++ lit "' timed out (waiting for input?)")
      | RunRaised e => Ret (warning_mark ++ lit " Execution error: " ++ e)
      end).

(** A program calls the shell when some answers of the environment lead it
    to [subprocess.run]. *)
Fixpoint calls_shell {A} (p : prog A) : Prop :=
  match p with
  | Ret _ => False
  | Do a k =>
      match a with SubprocessRun _ => True | _ => False end
      ∨ ∃ x, calls_shell (k x)
  end.

(** *** The host the program runs on *)

(** The process: its working directory and the rest of the machine (file
    system, users, other processes). *)
Record world (E : Type) := { cwd : str; env : E }.
Arguments cwd {E} w.
Arguments env {E} w.

(** What the operating system answers.  [resolve_dir e cwd path] is the
    directory [os.chdir(path)] enters, or its error; [getcwd_error] is the
    error of [os.getcwd()], if any; a child process changes the machine and
    never the working directory of its parent.  [host_open_append e cwd path]
    is [open(path, "a")], a relative [path] being looked up from [cwd], and
    [host_write e cwd path text] is [f.write(text)] on the file so opened;
    both give the machine they leave and their error, if any. *)
Class Host (E : Type) := {
  host_expanduser : E → str → try str;
  resolve_dir : E → str → str → try str;
  getcwd_error : E → str → option str;
  host_run : E → str → run_args → E * run_outcome;
  host_open_append : E → str → str → E * option str;
  host_write : E → str → str → str → E * option str
}.

Section WithHost.
Context {E : Type} `{Host E}.

Definition handle {X} (a : action X) (w : world E) : world E * X :=
  match a in action X return world E * X with
  | Expanduser path => (w, host_expanduser (env w) path)
  | Chdir path =>
      match resolve_dir (env w) (cwd w) path with
      | Returned d => ({| cwd := d; env := env w |}, Returned ())
      | Raised e => (w, Raised e)
      end
  | Getcwd =>
      (w, match getcwd_error (env w) (cwd w) with
          | Some e => Raised e
          | None => Returned (cwd w)
          end)
  | SubprocessRun a =>
      let '(e', r) := host_run (env w) (cwd w) a in
      ({| cwd := cwd w; env := e' |}, r)
  end.

Fixpoint interp {A} (p : prog A) (w : world E) : world E * A :=
  match p with
  | Ret a => (w, a)
  | Do a k => let '(w', x) := handle a w in interp (k x) w'
  end.

End WithHost.

(** ** Conversation State and the AI backend: [get_ai_response] *)

Inductive role := user | model.

(** One entry of [chat_history]: [{'role': ..., 'parts': [...]}]. *)
Record Turn := { turn_role : role; parts : list str }.

Definition role_name (r : role) : str :=
  match r with user => lit "user" | model => lit "model" end.

Inductive provider := gemini | openai.

(** The configuration fixed when the module is loaded. *)
Class Config := {
  API_PROVIDER : provider;
  MODEL_NAME : str;
  LOG_DIR : str;
  DISTRO : str;
  SYSTEM_PROMPT : str
}.

(** What is sent to the backend: the argument of [generate_content] with
    the model's system instruction, or the [messages] of
    [chat.completions.create]. *)
Inductive request :=
  | GeminiContents (system_instruction : str) (gemini_history : list Turn)
  | OpenAIMessages (messages : list (str * str)).

#[global] Instance role_eq_dec : EqDecision role.
Proof. solve_decision. Defined.
#[global] Instance Turn_eq_dec : EqDecision Turn.
Proof. solve_decision. Defined.
#[global] Instance request_eq_dec : EqDecision request.
Proof. solve_decision. Defined.

Section WithConfig.
Context `{Config}.

(** The request [get_ai_response(chat_history)] builds; [h['parts'][0]]
    raises an [IndexError] on an entry without parts. *)
Definition ai_request (chat_history : list Turn) : try request :=
  match API_PROVIDER with
  | gemini =>
      Returned (GeminiContents SYSTEM_PROMPT
        ((λ h, {| turn_role := turn_role h; parts := parts h |})
           <$> chat_history))
  | openai =>
      match mapM (λ h, pair (role_name (turn_role h)) <$> head (parts h))
                 chat_history with
      | Some messages =>
          Returned (OpenAIMessages ((lit "system", SYSTEM_PROMPT) :: messages))
      | None => Raised (lit "list index out of range")
      end
  end.

End WithConfig.

(** The conversation a request carries, read back from it: role and text
    segments of every message, in order, the system prompt left out. *)
Definition conversation (r : request) : list (str * list str) :=
  match r with
  | GeminiContents _ contents =>
      (λ h, (role_name (turn_role h), parts h)) <$> contents
  | OpenAIMessages messages => (λ m, (m.1, [m.2])) <$> tail messages
  end.

(** ** Turn Orchestrator: the loops of [main] *)

(** Where the program waits for its environment: at the outer prompt, at the
    call of the backend, at the prompt for a decision on the proposed
    commands; after [break]; after an exception that nothing catches. *)
Inductive phase :=
  | AwaitingUserInput
  | AIWorking
  | AwaitingUserDecision (commands : list str)
  | Finished
  | Crashed.

(** What the environment answers: a line typed at a prompt ([None] at the
    end of the input); or the backend, which has received the request [sent]
    and answers with a text, or the call raises (also when the answer holds
    no text, which raises in [parse_ai_response]).  [NotSent]: building the
    request has raised, and the backend is not called. *)
Inductive event :=
  | Typed (line : option str)
  | Answered (sent : request) (r : try str)
  | NotSent.

Record session (E : Type) := {
  chat_history : list Turn;
  at_phase : phase;
  host : world E
}.
Arguments chat_history {E} s.
Arguments at_phase {E} s.
Arguments host {E} s.

(** [Prompt.ask] of the rich library: an empty line gives the default when
    there is one, any other line is returned stripped. *)
Definition prompt_ask (default : option str) (value : str) : str :=
  match value, default with
  | [], Some d => d
  | _, _ => strip value
  end.

(** [commands[i]]; [None] stands for the [IndexError]. *)
Definition py_index (commands : list str) (i : Z) : option str :=
  if bool_decide (0 ≤ i)%Z then commands !! Z.to_nat i
  else if bool_decide (- Z.of_nat (length commands) ≤ i)%Z
       then commands !! Z.to_nat (Z.of_nat (length commands) + i)
       else None.

Definition user_turn (content : str) : Turn :=
  {| turn_role := user; parts := [content] |}.
Definition model_turn (content : str) : Turn :=
  {| turn_role := model; parts := [content] |}.

Definition tool_output_header : str := Eval cbv in lit "TOOL_OUTPUT:" ++ [10].
Definition skipped_by_user : str :=
  Eval cbv in tool_output_header ++ lit "(Commands skipped by user)".

(** ** The display of a result, in [main] *)

(** The colour [main] prints the output of a command in: the first matching
    prefix decides. *)
Inductive style := green | red | dim.

Definition output_style (output : str) : style :=
  if startswith check_mark output then green
  else if startswith warning_mark output then red
  else dim.

(** ** The console of the rich library *)

(** [console.print] of a text in the markup of the library, and of a
    Markdown document.  Rendering the markup raises for a closing tag that
    closes nothing ([MarkupError]): the result is then [Raised] with the
    message of the exception.  [Prompt.ask] renders its prompt as
    [console.print] does.  What appears on the terminal is not part of the
    model: the prints of [main] whose text is fixed (lines 199, 207, 220,
    227, 231, 246, and the prompt of line 232) are well-formed markup, and
    are left out. *)
Class Console := {
  console_print : str → try unit;
  markdown_print : str → try unit
}.

(** The texts [main] and [log_event] build around a value and print. *)

Definition provider_upper (p : provider) : str :=
  match p with gemini => lit "GEMINI" | openai => lit "OPENAI" end.

Definition distro_markup (distro : str) : str :=
  lit "[cyan]Detected Linux Distribution:[/cyan] " ++ distro.

Definition api_markup (p : provider) (model_name : str) : str :=
  lit "[cyan]Using API:[/cyan] " ++ provider_upper p
  ++ lit " ([dim]" ++ model_name ++ lit "[/dim])".

Definition prompt_markup (cwd : str) : str :=
  lit "[dim](" ++ cwd ++ lit ")[/dim]" ++ [10] ++ lit "[green]You:[/green]".

Definition suggestion_markup (i : nat) (cmd : str) : str :=
  lit "  " ++ lit (pretty i) ++ lit ". [cyan]" ++ cmd ++ lit "[/cyan]".

Definition executing_markup (cmd : str) : str :=
  [10] ++ lit "[bold yellow]" ++ [0x25B6; 0xFE0F]
  ++ lit "  Executing:[/bold yellow] [cyan]" ++ cmd ++ lit "[/cyan]".

Definition output_markup (output : str) : str :=
  match output_style output with
  | green => lit "[green]" ++ output ++ lit "[/green]"
  | red => lit "[red]" ++ output ++ lit "[/red]"
  | dim => lit "[dim]" ++ output ++ lit "[/dim]"
  end.

Definition error_markup (e : str) : str :=
  lit "[bold red]" ++ [0x274C] ++ lit " An error occurred in the AI loop: "
  ++ e ++ lit "[/bold red]".

Definition log_error_markup (e : str) : str :=
  lit "[red]Fout bij loggen: " ++ e ++ lit "[/red]".

(** [os.path.join(a, b)], for a [b] that does not start with a slash. *)
Definition path_join (a b : str) : str :=
  match last a with
  | None => b
  | Some c => if c =? 47 then a ++ b else a ++ [47] ++ b
  end.

(** The block of a command in the tool output. *)
Definition output_block (cmd output : str) : str :=
  lit "$ " ++ cmd ++ [10] ++ output.

Section WithEnvironment.
Context {E : Type} `{Interpreter} `{Config} `{Console} `{Host E}.

(** [log_event(command, output)]: the log file is opened for appending,
    from the working directory of the moment when [LOG_DIR] is relative;
    the entry is stamped with [os.getcwd()].  An exception is printed, not
    raised; the print itself can raise. *)
Definition log_event (w : world E) (command output : str)
  : world E * try unit :=
  let log_file := path_join LOG_DIR (lit "session_log.txt") in
  let '(e1, opened) := host_open_append (env w) (cwd w) log_file in
  let '(e3, failure) :=
    match opened with
    | Some err => (e1, Some err)
    | None =>
        match getcwd_error e1 (cwd w) with
        | Some err => (e1, Some err)
        | None =>
            let '(e2, written) :=
              host_write e1 (cwd w) log_file
                (lit "[" ++ cwd w ++ lit "] > " ++ command ++ [10]) in
            match written with
            | Some err => (e2, Some err)
            | None =>
                host_write e2 (cwd w) log_file
                  (output ++ [10] ++ lit "---" ++ [10])
            end
        end
    end in
  ({| cwd := cwd w; env := e3 |},
   match failure with
   | None => Returned ()
   | Some err => console_print (log_error_markup err)
   end).

(** The [for cmd in to_execute] loop: announce, execute, print, log, and
    keep the block [$ cmd\noutput].  An exception of a print ends the loop
    where it is raised. *)
Fixpoint run_commands (to_execute : list str) (w : world E)
  : world E * try (list str) :=
  match to_execute with
  | [] => (w, Returned [])
  | cmd :: rest =>
      match console_print (executing_markup cmd) with
      | Raised e => (w, Raised e)
      | Returned _ =>
          let '(w1, output) := interp (execute_command cmd) w in
          match console_print (output_markup output) with
          | Raised e => (w1, Raised e)
          | Returned _ =>
              match log_event w1 cmd output with
              | (w2, Raised e) => (w2, Raised e)
              | (w2, Returned _) =>
                  match run_commands rest w2 with
                  | (w3, Returned executed_outputs) =>
                      (w3, Returned (output_block cmd output
                                     :: executed_outputs))
                  | (w3, Raised e) => (w3, Raised e)
                  end
              end
          end
      end
  end.

(** The top of the outer loop: [os.getcwd()] and the prompt built from it,
    both outside the [try] block. *)
Definition await_user_input (h : list Turn) (w : world E) : session E :=
  match getcwd_error (env w) (cwd w) with
  | Some _ => {| chat_history := h; at_phase := Crashed; host := w |}
  | None =>
      match console_print (prompt_markup (cwd w)) with
      | Raised _ => {| chat_history := h; at_phase := Crashed; host := w |}
      | Returned _ =>
          {| chat_history := h; at_phase := AwaitingUserInput; host := w |}
      end
  end.

(** The [except Exception as e] handler of the inner loop: the message is
    printed and the inner loop ends; an exception of this print is caught
    by nothing. *)
Definition on_error (e : str) (h : list Turn) (w : world E) : session E :=
  match console_print (error_markup e) with
  | Raised _ => {| chat_history := h; at_phase := Crashed; host := w |}
  | Returned _ => await_user_input h w
  end.

(** [for i, cmd in enumerate(commands, 1): console.print(...)] *)
Fixpoint print_suggestions (i : nat) (commands : list str) : try unit :=
  match commands with
  | [] => Returned ()
  | cmd :: rest =>
      match console_print (suggestion_markup i cmd) with
      | Raised e => Raised e
      | Returned _ => print_suggestions (S i) rest
      end
  end.

(** A round of the inner loop from the answer of the backend to the prompt
    for a decision. *)
Definition on_response (h : list Turn) (w : world E)
    (ai_response_text : str) : session E :=
  let '(explanation, commands) := parse_ai_response ai_response_text in
  let h' := h ++ [model_turn ai_response_text] in
  match markdown_print explanation with
  | Raised e => on_error e h' w
  | Returned _ =>
      match commands with
      | [] => await_user_input h' w
      | _ =>
          match print_suggestions 1 commands with
          | Raised e => on_error e h' w
          | Returned _ =>
              {| chat_history := h';
                 at_phase := AwaitingUserDecision commands; host := w |}
          end
      end
  end.

(** The end of a round of the inner loop, from [if to_execute:] on. *)
Definition after_choice (h : list Turn) (w : world E)
    (to_execute : list str) (tool_output_str : str) : session E :=
  let finish (w' : world E) (tool_output_str : str) :=
    {| chat_history :=
         match tool_output_str with
         | [] => h
         | _ => h ++ [user_turn tool_output_str]
         end;
       at_phase := AIWorking;
       host := w' |} in
  match to_execute with
  | [] => finish w tool_output_str
  | _ =>
      match run_commands to_execute w with
      | (w', Returned executed_outputs) =>
          finish w' (tool_output_header ++ join [10] executed_outputs)
      | (w', Raised e) => on_error e h w'
      end
  end.

(** The decision on the proposed commands, once [keuze] is known. *)
Definition decide_choice (h : list Turn) (w : world E)
    (commands : list str) (keuze : str) : session E :=
  if bool_decide (keuze = lit "y" ∨ keuze = lit "yes") then
    after_choice h w commands []
  else if bool_decide (keuze = lit "n" ∨ keuze = lit "no") then
    after_choice h w [] skipped_by_user
  else
    match parse_selection keuze (Z.of_nat (length commands)) with
    | [] =>
        {| chat_history := h ++ [user_turn keuze];
           at_phase := AIWorking; host := w |}
    | selected_indices =>
        match mapM (py_index commands) selected_indices with
        | Some to_execute => after_choice h w to_execute []
        | None => on_error (lit "list index out of range") h w
        end
    end.

(** One step of [main]: the program takes the answer of its environment and
    runs to the next point where it waits.  [None]: the answer is not the
    one the program waits for; at the call of the backend, the request the
    backend has received is the one [get_ai_response] builds from the
    history.  An exception in the [try] block of the inner loop (from the
    backend, from building its request, from a print, from the prompt at the
    end of the input, from indexing [commands]) goes to the handler; the end
    of the input at the outer prompt is not caught. *)
Definition step (s : session E) (e : event) : option (session E) :=
  let h := chat_history s in
  let w := host s in
  match at_phase s, e with
  | AwaitingUserInput, Typed None =>
      Some {| chat_history := h; at_phase := Crashed; host := w |}
  | AwaitingUserInput, Typed (Some line) =>
      let user_input := prompt_ask None line in
      if bool_decide (lower user_input = lit "exit"
                      ∨ lower user_input = lit "quit")
      then Some {| chat_history := h; at_phase := Finished; host := w |}
      else Some {| chat_history := h ++ [user_turn user_input];
                   at_phase := AIWorking; host := w |}
  | AIWorking, Answered sent r =>
      match ai_request h with
      | Returned messages =>
          if bool_decide (messages = sent) then
            match r with
            | Returned ai_response_text =>
                Some (on_response h w ai_response_text)
            | Raised e => Some (on_error e h w)
            end
          else None
      | Raised _ => None
      end
  | AIWorking, NotSent =>
      match ai_request h with
      | Returned _ => None
      | Raised e => Some (on_error e h w)
      end
  | AwaitingUserDecision commands, Typed None =>
      Some (on_error (lit "EOF when reading a line") h w)
  | AwaitingUserDecision commands, Typed (Some line) =>
      let keuze := lower (prompt_ask (Some (lit "y")) line) in
      Some (decide_choice h w commands keuze)
  | _, _ => None
  end.

(** A run of the program over the answers of its environment. *)
Fixpoint run (s : session E) (events : list event) : option (session E) :=
  match events with
  | [] => Some s
  | e :: rest => match step s e with
                 | Some s' => run s' rest
                 | None => None
                 end
  end.

(** [main] up to the first prompt: the two lines about the configuration
    are printed, and [chat_history = []]. *)
Definition start (w : world E) : session E :=
  match console_print (distro_markup DISTRO) with
  | Raised _ => {| chat_history := []; at_phase := Crashed; host := w |}
  | Returned _ =>
      match console_print (api_markup API_PROVIDER MODEL_NAME) with
      | Raised _ => {| chat_history := []; at_phase := Crashed; host := w |}
      | Returned _ => await_user_input [] w
      end
  end.

Definition reachable (s : session E) : Prop :=
  ∃ w events, run (start w) events = Some s.

End WithEnvironment.

(** *** A console that checks the closing tags *)

(** The part of the markup of the library that raises.  A tag is an opening
    bracket, a character of [a-z#/@], then the characters up to the first
    closing bracket, none of them an opening bracket; after an odd number of
    backslashes it is text.  A closing tag [[/name]] closes the last open
    tag of that name, [[/]] the last open tag; when there is none, the
    rendering raises, with the position of the tag in its message.  Names
    are compared stripped and in lower case. *)

Definition tag_start (c : char) : bool :=
  ((97 <=? c) && (c <=? 122)) || (c =? 35) || (c =? 47) || (c =? 64).

Fixpoint tag_rest (s : str) : option str :=
  match s with
  | [] => None
  | c :: t =>
      if c =? 93 then Some []
      else if c =? 91 then None
      else cons c <$> tag_rest t
  end.

(** The text of the tag whose opening bracket stands before [s]. *)
Definition tag_at (s : str) : option str :=
  match s with
  | c :: t => if tag_start c then cons c <$> tag_rest t else None
  | [] => None
  end.

(** [tag_text.partition("=")[0]] *)
Definition tag_name (tag_text : str) : str :=
  match find [61] tag_text with
  | Some q => take q tag_text
  | None => tag_text
  end.

Definition normalize (style_name : str) : str :=
  @lower ascii_interpreter (strip style_name).

Fixpoint pop_style (style_name : str) (style_stack : list str)
  : option (list str) :=
  match style_stack with
  | [] => None
  | open_tag :: below =>
      if bool_decide (open_tag = style_name) then Some below
      else cons open_tag <$> pop_style style_name below
  end.

Definition closes_nothing (tag_text : str) (position : nat) : str :=
  lit "closing tag '[" ++ tag_text ++ lit "]' at position "
  ++ lit (pretty position) ++ lit " doesn't match any open tag".

Definition nothing_to_close (position : nat) : str :=
  lit "closing tag '[/]' at position " ++ lit (pretty position)
  ++ lit " has nothing to close".

(** The scan of the text: [skip] characters of a tag already read are left,
    [escapes] backslashes stand directly before the character at hand, and
    [style_stack] holds the open tags, the last one first. *)
Fixpoint render (markup : str) (position skip escapes : nat)
    (style_stack : list str) : try unit :=
  match markup with
  | [] => Returned ()
  | c :: t =>
      match skip with
      | S skip' => render t (S position) skip' 0 style_stack
      | O =>
          if c =? 92 then render t (S position) 0 (S escapes) style_stack
          else if c =? 91 then
            match tag_at t with
            | None => render t (S position) 0 0 style_stack
            | Some tag_text =>
                let after := render t (S position) (S (length tag_text)) 0 in
                if Nat.odd escapes then after style_stack
                else if startswith [47] (tag_name tag_text) then
                  match strip (drop 1 (tag_name tag_text)) with
                  | [] =>
                      match style_stack with
                      | [] => Raised (nothing_to_close position)
                      | _ :: below => after below
                      end
                  | style_name =>
                      match pop_style (normalize style_name) style_stack with
                      | None => Raised (closes_nothing tag_text position)
                      | Some below => after below
                      end
                  end
                else after (normalize (tag_name tag_text) :: style_stack)
            end
          else render t (S position) 0 0 style_stack
      end
  end.

Definition markup_console : Console := {|
  console_print := λ markup, render markup 0 0 0 [];
  markdown_print := λ _, Returned ()
|}.

(** ** Environment probe: [detect_distro] *)

(** [s.strip(chars)]: the characters of [chars] are removed at both ends. *)
Fixpoint lstrip_chars (chars s : str) : str :=
  match s with
  | [] => []
  | c :: t => if bool_decide (c ∈ chars) then lstrip_chars chars t else s
  end.

Fixpoint rstrip_chars (chars s : str) : str :=
  match s with
  | [] => []
  | c :: t =>
      match rstrip_chars chars t with
      | [] => if bool_decide (c ∈ chars) then [] else [c]
      | t' => c :: t'
      end
  end.

Definition strip_chars (chars s : str) : str :=
  lstrip_chars chars (rstrip_chars chars s).

Definition unknown : str := Eval cbv in lit "unknown".

Section WithInterpreterProbe.
Context `{Interpreter}.

(** The [for line in f] loop over [/etc/os-release]: every element is what
    one more read of the file gives, a line with its line end or an
    exception, which ends the loop in the [except] clause.  An index past
    the pieces of [split] is an [IndexError], caught by the same clause. *)
Fixpoint detect_in_lines (lines : list (try str)) : str :=
  match lines with
  | [] => unknown
  | Raised _ :: _ => unknown
  | Returned line :: rest =>
      if startswith (lit "ID=") line then
        match split (lit "=") (strip line) !! 1%nat with
        | Some value => lower (strip_chars [34] value)
        | None => unknown
        end
      else detect_in_lines rest
  end.

(** [detect_distro()] on what [open('/etc/os-release')] gives: the reads of
    the file, or the exception of [open]. *)
Definition detect_distro (os_release : try (list (try str))) : str :=
  match os_release with
  | Raised _ => unknown
  | Returned lines => detect_in_lines lines
  end.

End WithInterpreterProbe.

(** An [/etc/os-release] for examples. *)
Definition debian_release : list (try str) :=
  [Returned (lit "PRETTY_NAME=" ++ [34] ++ lit "Debian GNU/Linux 12" ++ [34; 10]);
   Returned (lit "VERSION_ID=" ++ [34] ++ lit "12" ++ [34; 10]);
   Returned (lit "ID=" ++ [34] ++ lit "Debian" ++ [34; 10]);
   Returned (lit "ID=other" ++ [10])].

(** A host like the small host of the examples below, whose shell prints
    the command line it is handed.  The directory of the session log exists
    in the root directory only, and what is written to the log is kept. *)
Definition echo_host : Host (list str) := {|
  host_expanduser := λ _ path, Returned path;
  resolve_dir := λ _ _ path,
    if bool_decide (path = lit "/tmp") then Returned path
    else Raised (lit "[Errno 2] No such file or directory");
  getcwd_error := λ _ _, None;
  host_run := λ e _ a, (e ++ [args a], Completed (args a) []);
  host_open_append := λ e cwd path,
    (e, if startswith (lit "/") path || bool_decide (cwd = lit "/") then None
        else Some (lit "[Errno 2] No such file or directory: '" ++ path
                   ++ lit "'"));
  host_write := λ e _ _ text, (e ++ [text], None)
|}.

(** ** Start-up: the configuration and the choice of the provider *)

(** What [json.load] gives: a string, an object (a [dict]), or another
    value (null, a boolean, a number, an array), of which only the truth
    value matters here. *)
#[local] Unset Elimination Schemes.
Inductive json :=
  | JString (s : str)
  | JObject (items : gmap (list N) json)
  | JOther (truthy : bool).
#[local] Set Elimination Schemes.

(** The truth value of a value, as [not] and [or] see it. *)
Definition truthy (v : json) : bool :=
  match v with
  | JString s => negb (bool_decide (s = []))
  | JObject items => negb (bool_decide (items = ∅))
  | JOther b => b
  end.

(** What opening and decoding [config.json] gives; the two exceptions the
    module catches, and any other. *)
Inductive load_result :=
  | Loaded (CONFIG : json)
  | FileNotFound
  | JSONDecodeError
  | OtherLoadError.

(** What the module finds when it is loaded: the configuration file, the
    environment variables, whether the two client libraries could be
    imported, and whether [os.makedirs(LOG_DIR, exist_ok=True)] succeeds. *)
Record boot := {
  config_file : load_result;
  getenv : str → option str;
  genai : bool;
  OpenAI : bool;
  makedirs : json → bool
}.

(** How loading the module ends: [exit(1)], an exception that nothing
    catches, or the module loaded with its globals. *)
Inductive startup_result :=
  | Exit1
  | Uncaught
  | Started (provider_ : provider) (API_KEY MODEL_NAME LOG_DIR : json).

Definition provider_name (p : provider) : str :=
  match p with gemini => lit "gemini" | openai => lit "openai" end.

(** The environment variable and the key of [api_keys] of a provider. *)
Definition key_name (p : provider) : str :=
  match p with
  | gemini => lit "GEMINI_API_KEY"
  | openai => lit "OPENAI_API_KEY"
  end.

(** [os.getenv(name) or CONFIG.get("api_keys", {}).get(name)]; [None]
    stands for the [AttributeError] of a [.get] on a value that is not an
    object.  The right-hand side is evaluated only when the variable is
    unset or empty. *)
Definition api_key (b : boot) (fields : gmap (list N) json) (name : str)
  : option json :=
  match getenv b name with
  | Some (c :: k) => Some (JString (c :: k))
  | _ =>
      match default (JObject ∅) (fields !! lit "api_keys") with
      | JObject keys => Some (default (JOther false) (keys !! name))
      | _ => None
      end
  end.

Section WithInterpreterStartup.
Context `{Interpreter}.

(** The module from the loading of [config.json] to [os.makedirs]; the
    calls [genai.configure] and [OpenAI(api_key=...)] of the client
    libraries are taken to return. *)
Definition startup (b : boot) : startup_result :=
  match config_file b with
  | FileNotFound | JSONDecodeError => Exit1
  | OtherLoadError => Uncaught
  | Loaded (JObject fields) =>
      match default (JString (lit "gemini")) (fields !! lit "api_provider") with
      | JString p =>
          let API_PROVIDER := lower p in
          let MODEL_NAME :=
            default (JString (lit "gemini-2.5-flash")) (fields !! lit "model") in
          let LOG_DIR :=
            default (JString (lit "logs")) (fields !! lit "log_dir") in
          let configure provider_ installed :=
            match api_key b fields (key_name provider_) with
            | None => Uncaught
            | Some API_KEY =>
                if negb (truthy API_KEY) then Exit1
                else if negb installed then Exit1
                else if makedirs b LOG_DIR
                     then Started provider_ API_KEY MODEL_NAME LOG_DIR
                     else Uncaught
            end in
          if bool_decide (API_PROVIDER = lit "gemini")
          then configure gemini (genai b)
          else if bool_decide (API_PROVIDER = lit "openai")
               then configure openai (OpenAI b)
               else Exit1
      | _ => Uncaught
      end
  | Loaded _ => Uncaught
  end.

End WithInterpreterStartup.

(** A start for examples: the file names the provider in mixed case and
    holds a key, and the environment holds another key. *)
Definition example_boot : boot :=
  {| config_file :=
       Loaded (JObject
         {[ lit "api_provider" := JString (lit "OpenAI");
            lit "api_keys" :=
              JObject {[ lit "OPENAI_API_KEY" := JString (lit "sk-file") ]} ]});
     getenv := λ name,
       if bool_decide (name = lit "OPENAI_API_KEY")
       then Some (lit "sk-env") else None;
     genai := false;
     OpenAI := true;
     makedirs := λ _, true |}.

(** ** The notions of the specification *)

(** *** Selection expressions (section 4.2)

    A part of a selection is a single integer [n], a range [a-b], or
    neither. *)
Inductive part_shape :=
  | Single (n : Z)
  | Range (a b : Z)
  | Malformed.

Section SelectionSpec.
Context `{Interpreter}.

Definition read_part (part : str) : part_shape :=
  let part := strip part in
  if bool_decide (ch "-" ∈ part) then
    match split (lit "-") part with
    | [a; b] => match int a, int b with
                | Some a, Some b => Range a b
                | _, _ => Malformed
                end
    | _ => Malformed
    end
  else match int part with
       | Some n => Single n
       | None => Malformed
       end.

(** A part is dropped when it is not parseable as integer(s), when the
    range is inverted or not within [1, max_num], or when the single number
    is outside [1, max_num]. *)
Definition dropped (max_num : Z) (part : str) : Prop :=
  match read_part part with
  | Malformed => True
  | Range a b => (b < a ∨ ¬ (1 ≤ a ∧ b ≤ max_num))%Z
  | Single n => ¬ (1 ≤ n ∧ n ≤ max_num)%Z
  end.

(** The zero-based indices a part stands for. *)
Definition part_indices (max_num : Z) (part : str) : gset Z :=
  match read_part part with
  | Malformed => ∅
  | Range a b =>
      if bool_decide (1 ≤ a ∧ a ≤ b ∧ b ≤ max_num)%Z
      then list_to_set (seqZ (a - 1) (b - a + 1))
      else ∅
  | Single n =>
      if bool_decide (1 ≤ n ∧ n ≤ max_num)%Z then {[ (n - 1)%Z ]} else ∅
  end.

End SelectionSpec.

(** *** Parsed responses (sections 4.1 and 8) *)

(** The commands of a block body: its lines, each trimmed, the empty ones
    left out. *)
Definition body_commands (body : str) : list str :=
  filter (λ l, l ≠ []) (strip <$> splitlines body).

(** The claim of section 4.1 on a text: with a block, the explanation is the
    trimmed text before the start of the first block. *)
Definition explanation_precedes_block (text : str) : Prop :=
  match re_search text with
  | Some (start, body) =>
      parse_ai_response text = (strip (take start text), body_commands body)
  | None => parse_ai_response text = (strip text, [])
  end.

(** Modelled from the spec: the reconstruction of section 8, which the
    source does not contain: the explanation followed by a rebuilt fence
    with the commands, one per line, as in scenario 3. *)
Definition reconstruct (parsed : str * list str) : str :=
  parsed.1 ++ [10] ++ block_open ++ join [10] parsed.2 ++ block_close.

(** The number of occurrences of [needle], overlapping ones included. *)
Fixpoint occurrences (needle s : str) : nat :=
  (if startswith needle s then 1 else 0)%nat
  + match s with [] => 0 | _ :: t => occurrences needle t end.

(** ** A small host for examples

    A machine with the directories [/], [/tmp] and [/root] (the home
    directory), whose shell prints nothing; the machine state is the list of
    command lines its shell has been handed. *)
Definition toy_dirs : list str :=
  Eval cbv in [lit "/"; lit "/tmp"; lit "/root"].

Definition toy_host : Host (list str) := {|
  host_expanduser := λ _ path,
    Returned (if startswith (lit "~") path
              then lit "/root" ++ drop 1 path else path);
  resolve_dir := λ _ _ path,
    if bool_decide (path ∈ toy_dirs) then Returned path
    else Raised (lit "[Errno 2] No such file or directory: '" ++ path
                 ++ lit "'");
  getcwd_error := λ _ _, None;
  host_run := λ e _ a, (e ++ [args a], Completed [] []);
  host_open_append := λ e _ _, (e, None);
  host_write := λ e _ _ _, (e, None)
|}.

(** The same host with a shell in which [printf_tag] prints [[/x]]. *)
Definition printf_tag : str := lit "printf '\133/x]'".

Definition tag_host : Host (list str) := {|
  host_expanduser := @host_expanduser _ toy_host;
  resolve_dir := @resolve_dir _ toy_host;
  getcwd_error := λ _ _, None;
  host_run := λ e _ a,
    (e ++ [args a],
     if bool_decide (args a = printf_tag) then Completed (lit "[/x]") []
     else Completed [] []);
  host_open_append := λ e _ _, (e, None);
  host_write := λ e _ _ _, (e, None)
|}.

Definition toy_config : Config :=
  {| API_PROVIDER := openai; MODEL_NAME := lit "gpt-4o"; LOG_DIR := lit "logs";
     DISTRO := lit "debian"; SYSTEM_PROMPT := lit "You are 'Companion'." |}.

(** The same configuration with an absolute directory for the log. *)
Definition var_log_config : Config :=
  {| API_PROVIDER := openai; MODEL_NAME := lit "gpt-4o";
     LOG_DIR := lit "/var/log/shellbuddy"; DISTRO := lit "debian";
     SYSTEM_PROMPT := lit "You are 'Companion'." |}.

Definition toy_world : world (list str) := {| cwd := lit "/"; env := [] |}.

(** The result of a change to [/tmp]. *)
Definition entered_tmp : str :=
  check_mark ++ lit " (Working directory changed to: /tmp)".

(** Section 8 on a text: parsing the reconstruction of a parse gives the
    parse back. *)
Definition reparse_stable (text : str) : Prop :=
  parse_ai_response (reconstruct (parse_ai_response text))
  = parse_ai_response text.

(** ** Example texts *)

(** A text given line by line. *)
Definition unlines (ls : list string) : str := join [10] (lit <$> ls).

(** The marker appears in the prose before the block. *)
Definition marker_in_prose : str :=
  unlines ["See ```bash docs."%string; "```bash"%string; "ls"%string; "```"%string].

(** One block, with an indented fence line inside its body. *)
Definition indented_fence : str :=
  unlines ["Run:"%string; "```bash"%string; "ls"%string; "  ```"%string; "pwd"%string; "```"%string].

(** The final report with the empty block the system prompt asks for. *)
Definition empty_block : str := unlines ["Done."%string; "```bash"%string; "```"%string].

Definition scenario3 : str := unlines ["Do X."%string; "```bash"%string; "ls -la"%string; "pwd"%string; "```"%string].

(** Scenario 5 of section 8, and the error of the small host on it. *)
Definition cd_nonexistent : str := lit "cd /nonexistent".
Definition no_such_directory : str :=
  lit "[Errno 2] No such file or directory: '/nonexistent'".

(** A session of the small host at the prompt for a decision on two
    proposed commands, after the user asked for them. *)
Definition asked : list Turn :=
  [user_turn (lit "where am I?"); model_turn scenario3].

Definition deciding : session (list str) :=
  {| chat_history := asked;
     at_phase := AwaitingUserDecision [lit "ls -la"; lit "pwd"];
     host := toy_world |}.

(** The same session one step earlier, when the backend is called. *)
Definition asking : session (list str) :=
  {| chat_history := [user_turn (lit "where am I?")];
     at_phase := AIWorking;
     host := toy_world |}.

(** What the shell of the small host gives back for the two commands. *)
Definition both_run : str :=
  tool_output_header
  ++ join [10]
       [lit "$ ls -la" ++ [10] ++ check_mark
          ++ lit " (Command executed, no output)";
        lit "$ pwd" ++ [10] ++ check_mark
          ++ lit " (Command executed, no output)"].

(** The session after the answer y to the two proposed commands. *)
Definition decided : session (list str) :=
  {| chat_history := asked ++ [user_turn both_run];
     at_phase := AIWorking;
     host := {| cwd := lit "/"; env := [lit "ls -la"; lit "pwd"] |} |}.

(** The request the backend receives in [asking]. *)
Definition asking_request : request :=
  OpenAIMessages [(lit "system", lit "You are 'Companion'.");
                  (lit "user", lit "where am I?")].

(** An answer of the model whose first command prints a closing tag, and
    the session at the prompt for the decision on its commands. *)
Definition tag_answer : str :=
  unlines ["Do X."%string; "```bash"%string; "printf '\133/x]'"%string;
           "pwd"%string; "```"%string].

Definition tag_asked : list Turn :=
  [user_turn (lit "where am I?"); model_turn tag_answer].

Definition tag_deciding : session (list str) :=
  {| chat_history := tag_asked;
     at_phase := AwaitingUserDecision [printf_tag; lit "pwd"];
     host := toy_world |}.

(** The message of the exception that printing [[dim][/x][/dim]] raises. *)
Definition tag_error : str := closes_nothing (lit "/x") 5.

(** Scenario 3 followed by more text with a second block. *)
Definition second_block : str :=
  unlines [""%string; "Then:"%string; "```bash"%string; "rm -rf x"%string;
           "```"%string].

(** * Properties *)

(** ** Selection Parser *)

Section SelectionParser.
Context `{Interpreter}.

Lemma selection_step_union max_num indices part :
  selection_step max_num indices part = indices ∪ part_indices max_num part.
Proof.
  unfold selection_step, part_indices, read_part.
  destruct (bool_decide (ch "-" ∈ strip part)).
  - destruct (split (lit "-") (strip part)) as [|a [|b [|c l]]]; simpl.
    + set_solver.
    + destruct (int a); simpl; set_solver.
    + destruct (int a) as [x|], (int b) as [y|]; simpl; try set_solver.
      replace (y - (x - 1))%Z with (y - x + 1)%Z by lia.
      destruct (bool_decide _); set_solver.
    + destruct (int a), (int b), (int c), (mapM int l); simpl; set_solver.
  - destruct (int (strip part)); [destruct (bool_decide _)|]; set_solver.
Qed.

Lemma selection_fold max_num parts indices :
  foldl (selection_step max_num) indices parts
  = indices ∪ ⋃ (part_indices max_num <$> parts).
Proof.
  revert indices. induction parts as [|p parts IH]; intros indices; simpl.
  - set_solver.
  - rewrite IH, selection_step_union. set_solver.
Qed.

Lemma part_indices_bounds max_num part i :
  i ∈ part_indices max_num part → (0 ≤ i < max_num)%Z.
Proof.
  unfold part_indices. destruct (read_part part) as [n|a b|].
  - case_bool_decide; set_solver by lia.
  - case_bool_decide; [|set_solver].
    rewrite elem_of_list_to_set, elem_of_seqZ. lia.
  - set_solver.
Qed.

Lemma selected_bounds max_num parts i :
  i ∈ foldl (selection_step max_num) ∅ parts → (0 ≤ i < max_num)%Z.
Proof.
  rewrite selection_fold, elem_of_union, elem_of_union_list.
  intros [Hi|(X & HX & Hi)]; [set_solver|].
  apply list_elem_of_fmap in HX as (part & -> & _).
  eauto using part_indices_bounds.
Qed.

End SelectionParser.

(** [sorted] of a list without repetitions is strictly ascending. *)
Lemma sorted_distinct_ascending (l : list Z) :
  NoDup l → StronglySorted Z.lt (merge_sort Z.le l).
Proof.
  intros Hnd.
  assert (Hs : StronglySorted Z.le (merge_sort Z.le l))
    by apply (StronglySorted_merge_sort _).
  assert (Hnd' : NoDup (merge_sort Z.le l))
    by (by rewrite merge_sort_Permutation).
  induction Hs as [|x l' _ IH Hall]; [constructor|].
  apply NoDup_cons in Hnd' as [Hx Hnd'].
  constructor; [auto|].
  rewrite Forall_forall in Hall |- *. intros y Hy.
  assert (x ≠ y) by (intros ->; by apply Hx, list_elem_of_In).
  specialize (Hall y Hy). lia.
Qed.

Section SelectionClaims.
Context `{Interpreter}.

(** C3: for every selection string and every [max_num], every index
    returned by [parse_selection] lies in [0, max_num), and the list is
    strictly ascending, hence without duplicates. *)
Theorem parse_selection_in_range_ascending selection_str max_num :
  Forall (λ i, 0 ≤ i < max_num)%Z (parse_selection selection_str max_num)
  ∧ StronglySorted Z.lt (parse_selection selection_str max_num)
  ∧ NoDup (parse_selection selection_str max_num).
Proof.
  unfold parse_selection. split_and!.
  - rewrite merge_sort_Permutation, Forall_forall. intros i Hi.
    apply elem_of_elements in Hi. eauto using selected_bounds.
  - apply sorted_distinct_ascending, NoDup_elements.
  - rewrite merge_sort_Permutation. apply NoDup_elements.
Qed.

Lemma part_indices_empty_iff max_num part :
  part_indices max_num part = ∅ ↔ dropped max_num part.
Proof.
  unfold part_indices, dropped. destruct (read_part part) as [n|a b|].
  - case_bool_decide; [|tauto]. split; [|tauto].
    intros He. assert ((n - 1)%Z ∈ (∅ : gset Z)) by (rewrite <- He; set_solver).
    set_solver.
  - case_bool_decide as Hv.
    + split; [|lia]. intros He.
      assert ((a - 1)%Z ∈ (∅ : gset Z)); [|set_solver].
      rewrite <- He, elem_of_list_to_set, elem_of_seqZ. lia.
    + split; [|done]. intros _. lia.
  - tauto.
Qed.

(** C5: the parts of a selection are processed independently.  Looking at a
    part adds the indices of that part and nothing else, whatever the other
    parts are; the result is the sorted union of the index sets of the
    parts; and a part adds nothing exactly when it is not parseable as
    integer(s), is an inverted range or a range not within [1, max_num], or
    is a single number outside [1, max_num].  Being a function of the
    string and [max_num], the result is the same for the same input. *)
Theorem parse_selection_parts_independent selection_str max_num :
  (∀ indices part,
     selection_step max_num indices part
     = indices ∪ part_indices max_num part)
  ∧ parse_selection selection_str max_num
    = merge_sort Z.le (elements
        (⋃ (part_indices max_num <$> split (lit ",") selection_str)))
  ∧ (∀ part, part_indices max_num part = ∅ ↔ dropped max_num part).
Proof.
  split_and!.
  - apply selection_step_union.
  - unfold parse_selection. rewrite selection_fold.
    by rewrite (left_id_L ∅ (∪)).
  - apply part_indices_empty_iff.
Qed.

End SelectionClaims.

(** ** Facts about the string operations *)

Section StringFacts.
Implicit Types (s t p : list N) (c : N).

Lemma startswith_prefix p s : startswith p s = true ↔ ∃ r, s = p ++ r.
Proof.
  revert s. induction p as [|a p IH]; intros [|b s]; simpl.
  - split; [by exists []|done].
  - split; [by eexists|done].
  - split; [done|]. by intros [r ?].
  - rewrite andb_true_iff, N.eqb_eq, IH. split.
    + intros [-> [r ->]]. by exists r.
    + intros [r [= -> ->]]. eauto.
Qed.

Lemma startswith_app p r : startswith p (p ++ r) = true.
Proof. apply startswith_prefix. by exists r. Qed.

Lemma startswith_nil_r p : p ≠ [] → startswith p [] = false.
Proof. by destruct p. Qed.

(** A prefix reaching over a character it does not contain ends before it. *)
Lemma startswith_before p s c t :
  c ∉ p → startswith p (s ++ c :: t) = true → startswith p s = true.
Proof.
  revert s. induction p as [|a p IH]; intros s Hc; [done|].
  destruct s as [|b s]; simpl.
  - rewrite andb_true_iff, N.eqb_eq. intros [-> _]. set_solver.
  - rewrite !andb_true_iff. intros [? ?]. split; [done|].
    apply IH; [set_solver|done].
Qed.

Lemma startswith_app_l p q s :
  startswith (p ++ q) s = true → startswith p s = true.
Proof.
  rewrite !startswith_prefix. intros [r ->]. exists (q ++ r). by rewrite <-(assoc_L (++)).
Qed.

Lemma find_from_shift i needle s :
  find_from (S i) needle s = S <$> find_from i needle s.
Proof.
  revert i. induction s as [|c s IH]; intros i; simpl;
    destruct (startswith needle _); auto.
Qed.

Lemma find_cons needle c s :
  find needle (c :: s)
  = if startswith needle (c :: s) then Some 0%nat else S <$> find needle s.
Proof.
  unfold find. simpl. destruct (startswith _ _); [done|].
  apply find_from_shift.
Qed.

(** [find] gives the first position at which the needle starts. *)
Lemma find_Some needle s q :
  find needle s = Some q ↔
  startswith needle (drop q s) = true
  ∧ ∀ j, (j < q)%nat → startswith needle (drop j s) = false.
Proof.
  revert q. induction s as [|c s IH]; intros q.
  - unfold find. simpl. destruct (startswith needle []) eqn:E.
    + split.
      * intros [= <-]. split; [done|lia].
      * intros [_ Hq]. destruct q; [done|]. specialize (Hq 0%nat). simpl in Hq.
        rewrite E in Hq. discriminate Hq. lia.
    + split; [done|]. intros [Hq _]. by rewrite drop_nil, E in Hq.
  - rewrite find_cons. destruct (startswith needle (c :: s)) eqn:E.
    + split.
      * intros [= <-]. split; [done|lia].
      * intros [_ Hq]. destruct q; [done|]. specialize (Hq 0%nat). simpl in Hq.
        rewrite E in Hq. discriminate Hq. lia.
    + destruct (find needle s) as [q'|]; simpl.
      * split.
        -- intros [= <-]. destruct (proj1 (IH q') eq_refl) as [? Hlt].
           split; [done|]. intros [|j] ?; [done|]. apply Hlt. lia.
        -- intros [Hq Hlt]. destruct q as [|q]; [simpl in Hq; congruence|].
           assert (Some q' = Some q) as [= ->]; [|done].
           apply IH. split; [done|]. intros j ?. apply (Hlt (S j)). lia.
      * split; [done|]. intros [Hq Hlt].
        destruct q as [|q]; [simpl in Hq; congruence|].
        assert (@None nat = Some q); [|congruence].
        apply IH. split; [done|]. intros j ?. apply (Hlt (S j)). lia.
Qed.

Lemma find_None needle s :
  find needle s = None ↔ ∀ j, startswith needle (drop j s) = false.
Proof.
  induction s as [|c s IH].
  - unfold find. simpl. split.
    + intros Hn j. rewrite drop_nil. by destruct (startswith needle []).
    + intros Hn. specialize (Hn 0%nat). simpl in Hn. by rewrite Hn.
  - rewrite find_cons. split.
    + destruct (startswith needle (c :: s)) eqn:E; [done|].
      destruct (find needle s) eqn:Ef; [done|]. intros _ [|j]; [done|].
      simpl. by apply IH.
    + intros Hn. pose proof (Hn 0%nat) as Hn0. simpl in Hn0. rewrite Hn0.
      assert (find needle s = None) as ->; [|done].
      apply IH. intros j. apply (Hn (S j)).
Qed.

(** An occurrence somewhere gives a first occurrence at or before it. *)
Lemma find_le needle s k :
  startswith needle (drop k s) = true →
  ∃ q, find needle s = Some q ∧ (q ≤ k)%nat.
Proof.
  intros Hk. destruct (find needle s) as [q|] eqn:Ef.
  - exists q. split; [done|]. apply find_Some in Ef as [_ Hlt].
    destruct (decide (q ≤ k)%nat); [done|].
    rewrite Hlt in Hk by lia. done.
  - rewrite find_None in Ef. by rewrite Ef in Hk.
Qed.

(** [s.split(sep)[0]] is the text before the first separator. *)
Lemma split_aux_hd sep cur s :
  sep ≠ [] →
  hd [] (split_aux sep 0 cur s)
  = cur ++ match find sep s with Some q => take q s | None => s end.
Proof.
  intros Hsep. revert cur. induction s as [|c s IH]; intros cur.
  - unfold find. simpl. rewrite startswith_nil_r by done.
    by rewrite (right_id_L [] (++)).
  - rewrite find_cons. simpl. destruct (startswith sep (c :: s)).
    + simpl. by rewrite (right_id_L [] (++)).
    + rewrite IH. destruct (find sep s); simpl; by rewrite <-(assoc_L (++)).
Qed.

Lemma split_hd sep s :
  sep ≠ [] →
  hd [] (split sep s)
  = match find sep s with Some q => take q s | None => s end.
Proof. intros. unfold split. by rewrite split_aux_hd. Qed.

End StringFacts.

Local Abbreviation spaces ws := (Forall (λ c, isspace c = true) ws).

Section StripFacts.
Implicit Types (s t ws : list N) (c w : N).

Lemma lstrip_spaces ws s : spaces ws → lstrip (ws ++ s) = lstrip s.
Proof. induction 1 as [|w ws Hw _ IH]; simpl; [done|by rewrite Hw]. Qed.

Lemma rstrip_snoc_space s w : isspace w = true → rstrip (s ++ [w]) = rstrip s.
Proof.
  intros Hw. induction s as [|c s IH]; simpl; [by rewrite Hw|by rewrite IH].
Qed.

Lemma rstrip_spaces s ws : spaces ws → rstrip (s ++ ws) = rstrip s.
Proof.
  intros Hws. revert s. induction Hws as [|w ws Hw _ IH]; intros s.
  - by rewrite (right_id_L [] (++)).
  - by rewrite (cons_middle w s ws), (assoc_L (++)), IH, rstrip_snoc_space.
Qed.

Lemma rstrip_spaces_l ws s :
  spaces ws →
  rstrip (ws ++ s) = match rstrip s with [] => [] | r => ws ++ r end.
Proof.
  induction 1 as [|w ws Hw _ IH]; simpl; [by destruct (rstrip s)|].
  rewrite IH. destruct (rstrip s) as [|c r]; [by rewrite Hw|].
  by destruct ws.
Qed.

Lemma strip_spaces_l ws s : spaces ws → strip (ws ++ s) = strip s.
Proof.
  intros Hws. unfold strip. rewrite rstrip_spaces_l by done.
  destruct (rstrip s); [done|by apply lstrip_spaces].
Qed.

Lemma strip_spaces_r s ws : spaces ws → strip (s ++ ws) = strip s.
Proof. intros. unfold strip. by rewrite rstrip_spaces. Qed.

Lemma rstrip_split s : ∃ ws, s = rstrip s ++ ws ∧ spaces ws.
Proof.
  induction s as [|c s (ws & Hs & Hws)]; simpl; [by exists []|].
  destruct (rstrip s) as [|c' r] eqn:Hr.
  - simpl in Hs. subst s. destruct (isspace c) eqn:Hc.
    + exists (c :: ws). auto.
    + by exists ws.
  - exists ws. split; [|done]. simpl. by rewrite Hs at 1.
Qed.

Lemma lstrip_split s : ∃ ws, s = ws ++ lstrip s ∧ spaces ws.
Proof.
  induction s as [|c s (ws & Hs & Hws)]; simpl; [by exists []|].
  destruct (isspace c) eqn:Hc.
  - exists (c :: ws). split; [simpl; by rewrite Hs at 1|auto].
  - by exists [].
Qed.

(** A string is stripped when it neither starts nor ends with a space. *)
Lemma lstrip_id c s : isspace c = false → lstrip (c :: s) = c :: s.
Proof. simpl. by intros ->. Qed.

Lemma rstrip_lstrip s : rstrip (lstrip s) = lstrip (rstrip s).
Proof.
  induction s as [|c s IH]; [done|]. simpl.
  destruct (isspace c) eqn:Hc.
  - rewrite IH. destruct (rstrip s) as [|c' r]; simpl; by rewrite ?Hc.
  - simpl. destruct (rstrip s) as [|c' r]; simpl; by rewrite ?Hc.
Qed.

Lemma lstrip_idemp s : lstrip (lstrip s) = lstrip s.
Proof.
  induction s as [|c s IH]; [done|]. simpl.
  destruct (isspace c) eqn:Hc; [done|]. simpl. by rewrite Hc.
Qed.

Lemma rstrip_idemp s : rstrip (rstrip s) = rstrip s.
Proof.
  destruct (rstrip_split s) as (ws & Hs & Hws).
  rewrite Hs at 2. by rewrite rstrip_spaces.
Qed.

Lemma strip_idemp s : strip (strip s) = strip s.
Proof.
  unfold strip. by rewrite rstrip_lstrip, rstrip_idemp, lstrip_idemp.
Qed.

Lemma strip_nil_spaces s : strip s = [] → spaces s.
Proof.
  unfold strip. intros Hs.
  destruct (rstrip_split s) as (ws & Hr & Hws).
  destruct (lstrip_split (rstrip s)) as (ws' & Hl & Hws').
  rewrite Hs, (right_id_L [] (++)) in Hl. rewrite Hr, Hl.
  by apply Forall_app.
Qed.

Lemma strip_spaces ws : spaces ws → strip ws = [].
Proof.
  intros. rewrite <-(right_id_L [] (++) ws). by rewrite strip_spaces_l.
Qed.

(** The characters of the stripped string are characters of the string. *)
Lemma strip_sublist s : ∃ ws ws', s = ws ++ strip s ++ ws'.
Proof.
  destruct (rstrip_split s) as (ws' & Hr & _).
  destruct (lstrip_split (rstrip s)) as (ws & Hl & _).
  exists ws, ws'. unfold strip. by rewrite (assoc_L (++)), <-Hl.
Qed.

End StripFacts.

Section LineFacts.
Implicit Types (s t ws cur : list N) (c w : N).

Local Abbreviation kept_lines cur s :=
  (filter (λ l : list N, l ≠ []) (strip <$> splitlines_aux cur s)).

Lemma islinebreak_isspace c : islinebreak c = true → isspace c = true.
Proof.
  unfold islinebreak, isspace.
  rewrite !orb_true_iff, !andb_true_iff, !N.leb_le, !N.eqb_eq. lia.
Qed.

Lemma kept_lines_nil cur :
  kept_lines cur [] = filter (λ l : list N, l ≠ []) [strip cur].
Proof. by destruct cur. Qed.

Lemma kept_lines_cons_eq cur cur' (l : list (list N)) :
  strip cur = strip cur' →
  filter (λ l : list N, l ≠ []) (strip <$> cur :: l)
  = filter (λ l : list N, l ≠ []) (strip <$> cur' :: l).
Proof. intros Heq. by rewrite !fmap_cons, Heq. Qed.

(** Spaces in front of a line do not change the commands. *)
Lemma kept_lines_spaces_l ws cur s :
  spaces ws → kept_lines (ws ++ cur) s = kept_lines cur s.
Proof.
  intros Hws. revert cur. induction s as [|c s IH]; intros cur.
  - rewrite !kept_lines_nil. by rewrite strip_spaces_l.
  - simpl. destruct (c =? 13).
    { destruct s as [|c' s']; [|destruct (c' =? 10)];
        by apply kept_lines_cons_eq, strip_spaces_l. }
    destruct (islinebreak c).
    { by apply kept_lines_cons_eq, strip_spaces_l. }
    rewrite <-(assoc_L (++)). apply IH.
Qed.

Lemma splitlines_aux_cons cur c t :
  splitlines_aux cur (c :: t)
  = if c =? 13 then
      match t with
      | c' :: t' =>
          if c' =? 10 then cur :: splitlines_aux [] t'
          else cur :: splitlines_aux [] t
      | [] => cur :: splitlines_aux [] t
      end
    else if islinebreak c then cur :: splitlines_aux [] t
    else splitlines_aux (cur ++ [c]) t.
Proof. done. Qed.

(** A space at the end of the text does not change the commands. *)
Lemma kept_lines_snoc_space cur s w :
  isspace w = true → kept_lines cur (s ++ [w]) = kept_lines cur s.
Proof.
  intros Hw. remember (length s) as n eqn:Hn. revert s cur Hn.
  induction n as [n IH] using lt_wf_ind. intros s cur ->.
  assert (IH' : ∀ t cur', (length t < length s)%nat →
            kept_lines cur' (t ++ [w]) = kept_lines cur' t)
    by (intros; by eapply IH).
  clear IH. destruct s as [|c s].
  - cbn [app]. rewrite splitlines_aux_cons, !kept_lines_nil.
    destruct (w =? 13); [done|]. destruct (islinebreak w); [done|].
    rewrite kept_lines_nil. by rewrite strip_spaces_r by auto.
  - cbn [app]. rewrite !splitlines_aux_cons. destruct (c =? 13).
    { destruct s as [|c' s']; cbn [app].
      - assert (Hnil := IH' [] [] ltac:(simpl; lia)). cbn [app] in Hnil.
        destruct (w =? 10); rewrite !fmap_cons, !filter_cons, ?Hnil; done.
      - destruct (c' =? 10); rewrite !fmap_cons, !filter_cons.
        + by rewrite (IH' s' []) by (simpl; lia).
        + assert (Hc := IH' (c' :: s') [] ltac:(simpl; lia)).
          cbn [app] in Hc. by rewrite Hc. }
    destruct (islinebreak c).
    { rewrite !fmap_cons, !filter_cons.
      by rewrite (IH' s []) by (simpl; lia). }
    by rewrite (IH' s (cur ++ [c])) by (simpl; lia).
Qed.

Lemma kept_lines_spaces_r cur s ws :
  spaces ws → kept_lines cur (s ++ ws) = kept_lines cur s.
Proof.
  intros Hws. revert s. induction Hws as [|w ws Hw _ IH]; intros s.
  - by rewrite (right_id_L [] (++)).
  - by rewrite (cons_middle w s ws), (assoc_L (++)), IH,
      kept_lines_snoc_space.
Qed.

(** Spaces at the start of the text do not change the commands. *)
Lemma kept_lines_lstrip s : kept_lines [] (lstrip s) = kept_lines [] s.
Proof.
  induction s as [|c s IH]; [done|]. cbn [lstrip].
  destruct (isspace c) eqn:Hc; [|done]. rewrite IH, splitlines_aux_cons.
  destruct (c =? 13).
  { destruct s as [|c' s']; [done|]. destruct (c' =? 10) eqn:E; [|done].
    by apply N.eqb_eq in E as ->. }
  destruct (islinebreak c); [done|].
  symmetry. apply (kept_lines_spaces_l [c] []). auto.
Qed.

Lemma body_commands_strip s : body_commands (strip s) = body_commands s.
Proof.
  unfold body_commands, splitlines, strip. rewrite kept_lines_lstrip.
  destruct (rstrip_split s) as (ws & Hs & Hws).
  rewrite Hs at 2. by rewrite kept_lines_spaces_r.
Qed.

Lemma filter_strip_fmap (l : list (list N)) :
  strip <$> filter (λ cmd, strip cmd ≠ []) l
  = filter (λ l : list N, l ≠ []) (strip <$> l).
Proof.
  induction l as [|a l IH]; [done|].
  rewrite fmap_cons, !filter_cons. destruct (decide (strip a ≠ [])).
  - by rewrite fmap_cons, IH.
  - done.
Qed.

End LineFacts.

(** ** Command Parser *)

Section SearchFacts.
Implicit Types (s t : list N) (c : N).

Lemma re_search_from_shift i s :
  re_search_from (S i) s = prod_map S (λ g : list N, g) <$> re_search_from i s.
Proof.
  revert i. induction s as [|c s IH]; intros i; [done|].
  cbn [re_search_from]. destruct (match_here (c :: s)); [done|]. apply IH.
Qed.

Lemma re_search_cons c s :
  re_search (c :: s)
  = match match_here (c :: s) with
    | Some group1 => Some (0%nat, group1)
    | None => prod_map S (λ g : list N, g) <$> re_search s
    end.
Proof.
  unfold re_search. cbn [re_search_from].
  destruct (match_here (c :: s)); [done|]. apply re_search_from_shift.
Qed.

(** [re_search] gives the first position at which the pattern matches, and
    the group of the match there. *)
Lemma re_search_Some s q g :
  re_search s = Some (q, g) ↔
  match_here (drop q s) = Some g
  ∧ ∀ j, (j < q)%nat → match_here (drop j s) = None.
Proof.
  revert q. induction s as [|c s IH]; intros q.
  - split; [done|]. intros [Hq _]. by rewrite drop_nil in Hq.
  - rewrite re_search_cons. destruct (match_here (c :: s)) as [g'|] eqn:E.
    + split.
      * intros [= <- <-]. split; [done|lia].
      * intros [Hq Hlt]. destruct q as [|q]; [simpl in Hq; congruence|].
        specialize (Hlt 0%nat ltac:(lia)). simpl in Hlt. congruence.
    + destruct (re_search s) as [[q' g']|]; simpl.
      * split.
        -- intros [= <- <-]. destruct (proj1 (IH q') eq_refl) as [? Hlt].
           split; [done|]. intros [|j] ?; [done|]. apply Hlt. lia.
        -- intros [Hq Hlt]. destruct q as [|q]; [simpl in Hq; congruence|].
           assert (Some (q', g') = Some (q, g)) as [= -> ->]; [|done].
           apply IH. split; [done|]. intros j ?. apply (Hlt (S j)). lia.
      * split; [done|]. intros [Hq Hlt].
        destruct q as [|q]; [simpl in Hq; congruence|].
        assert (@None (nat * list N) = Some (q, g)); [|congruence].
        apply IH. split; [done|]. intros j ?. apply (Hlt (S j)). lia.
Qed.

Lemma match_here_fence s g :
  match_here s = Some g → startswith fence_open s = true.
Proof.
  unfold match_here. destruct (startswith block_open s) eqn:E; [|done].
  intros _. by apply (startswith_app_l fence_open [10]).
Qed.

Lemma fence_open_nonempty : fence_open ≠ [].
Proof. done. Qed.

End SearchFacts.

Section BlockFacts.
Implicit Types (s t l body : list N) (c : N) (cs : list (list N)).

(** The lazy group ends at the first occurrence of the closing literal. *)
Lemma lazy_until_find closing s :
  lazy_until closing s = (λ j, take j s) <$> find closing s.
Proof.
  induction s as [|c s IH].
  - unfold find. simpl. by destruct (startswith closing []).
  - rewrite find_cons. simpl. destruct (startswith closing (c :: s)); [done|].
    rewrite IH. by destruct (find closing s).
Qed.

Lemma match_here_Some s g :
  match_here s = Some g ↔
  startswith block_open s = true
  ∧ ∃ j, find block_close (drop (length block_open) s) = Some j
         ∧ g = take j (drop (length block_open) s).
Proof.
  unfold match_here. rewrite lazy_until_find.
  destruct (startswith block_open s); [|naive_solver].
  destruct (find block_close _) as [j|]; simpl; naive_solver.
Qed.

(** When the first marker is directly followed by a newline, the first
    block starts at it. *)
Lemma first_marker_opens_block text start body q :
  re_search text = Some (start, body) →
  find fence_open text = Some q →
  startswith block_open (drop q text) = true →
  q = start.
Proof.
  intros Hre Hq Hopen. apply re_search_Some in Hre as [Hm Hlt].
  pose proof (match_here_fence _ _ Hm) as Hf.
  apply find_Some in Hq as [_ Hqlt].
  destruct (lt_eq_lt_dec q start) as [[Hlt'| ->]|Hgt]; [|done|].
  - exfalso. specialize (Hlt q Hlt').
    apply match_here_Some in Hm as (_ & j & Hj & _).
    apply find_Some in Hj as [Hj _].
    unfold match_here in Hlt. rewrite Hopen, lazy_until_find in Hlt.
    destruct (find block_close (drop (length block_open) (drop q text)))
      eqn:Hn; [done|].
    rewrite find_None in Hn. specialize (Hn (start - q + j)%nat).
    rewrite !drop_drop in Hn, Hj.
    replace (q + (length block_open + (start - q + j)))%nat
      with (start + (length block_open + j))%nat in Hn by lia.
    congruence.
  - specialize (Hqlt start Hgt). congruence.
Qed.

Lemma lazy_until_skip l s :
  10 ∉ l →
  lazy_until block_close (l ++ s) = app l <$> lazy_until block_close s.
Proof.
  induction l as [|c l IH]; intros Hl.
  - simpl. by destruct (lazy_until block_close s).
  - assert ((10 =? c) = false) as Hc by (apply N.eqb_neq; set_solver).
    cbn [app lazy_until]. unfold block_close at 1. cbn [startswith].
    rewrite Hc. cbn [andb]. rewrite IH by set_solver.
    by destruct (lazy_until block_close s).
Qed.

Lemma lazy_until_newline s :
  startswith fence s = false →
  lazy_until block_close (10 :: s) = cons 10 <$> lazy_until block_close s.
Proof.
  intros Hs. cbn [lazy_until]. change block_close with (10 :: fence) at 1.
  cbn [startswith]. by rewrite Hs.
Qed.

End BlockFacts.

(** C2, amended: for every raw response text, if the pattern of a
    shell-tagged fenced block matches, the explanation is the trimmed text
    before the first occurrence of the marker [```bash] in the text, which
    is at or before the start of the first block, and is the start of the
    first block exactly when this first marker is directly followed by a
    newline; the commands are the lines of the body of the first block, each
    trimmed, the empty ones left out, in order; if the pattern does not
    match, the explanation is the entire trimmed text and there are no
    commands.  A result is returned in every case. *)
Theorem parse_ai_response_explanation_commands (text : str) :
  match re_search text with
  | Some (start, body) =>
      ∃ q, find fence_open text = Some q ∧ (q ≤ start)%nat
           ∧ (q = start ↔ startswith block_open (drop q text) = true)
           ∧ parse_ai_response text
             = (strip (take q text), body_commands body)
  | None => parse_ai_response text = (strip text, [])
  end.
Proof.
  unfold parse_ai_response.
  destruct (re_search text) as [[start body]|] eqn:Hre; [|done].
  pose proof Hre as Hfirst.
  apply re_search_Some in Hre as [Hm _].
  pose proof (proj1 (proj1 (match_here_Some _ _) Hm)) as Hopen.
  apply match_here_fence in Hm.
  destruct (find_le _ _ _ Hm) as (q & Hq & Hle).
  exists q. split_and!; [done..| |].
  { split; [by intros ->|].
    by apply (first_marker_opens_block text start body). }
  rewrite split_hd, Hq by apply fence_open_nonempty.
  rewrite filter_strip_fmap. f_equal. apply body_commands_strip.
Qed.

(** C2, as stated, fails: in [marker_in_prose] the first block starts at
    position 18, and the explanation is not the trimmed text before it. *)
Lemma explanation_precedes_block_fails :
  ¬ explanation_precedes_block marker_in_prose.
Proof. vm_compute. discriminate. Qed.

Local Abbreviation unbroken l := (Forall (λ c, islinebreak c = false) l).

Section ReconstructionFacts.
Implicit Types (s t l cur body : list N) (c : N) (cs : list (list N)).

Lemma unbroken_not_cr c : islinebreak c = false → (c =? 13) = false.
Proof.
  intros Hc. destruct (c =? 13) eqn:E; [|done].
  apply N.eqb_eq in E as ->. done.
Qed.

(** No line of [splitlines] contains a line boundary. *)
Lemma splitlines_aux_unbroken cur s :
  unbroken cur → Forall (λ l, unbroken l) (splitlines_aux cur s).
Proof.
  remember (length s) as n eqn:Hn. revert s cur Hn.
  induction n as [n IH] using lt_wf_ind. intros s cur -> Hcur.
  assert (IH' : ∀ t cur', (length t < length s)%nat → unbroken cur' →
            Forall (λ l, unbroken l) (splitlines_aux cur' t))
    by (intros; by eapply IH).
  clear IH. destruct s as [|c s].
  - destruct cur; simpl; auto.
  - rewrite splitlines_aux_cons. destruct (c =? 13).
    { destruct s as [|c' s']; [|destruct (c' =? 10)];
        constructor; try done; apply IH'; simpl; auto; lia. }
    destruct (islinebreak c) eqn:Hc.
    { constructor; [done|]. apply IH'; simpl; auto. }
    apply IH'; [simpl; lia|]. apply Forall_app. auto.
Qed.

Lemma strip_unbroken l : unbroken l → unbroken (strip l).
Proof.
  intros Hl. destruct (strip_sublist l) as (ws & ws' & Heq).
  rewrite Heq in Hl. by apply Forall_app in Hl as [_ [? _]%Forall_app].
Qed.

Lemma splitlines_aux_skip cur l s :
  unbroken l → splitlines_aux cur (l ++ s) = splitlines_aux (cur ++ l) s.
Proof.
  intros Hl. revert cur. induction Hl as [|c l Hc _ IH]; intros cur.
  - by rewrite (right_id_L [] (++)).
  - cbn [app]. rewrite splitlines_aux_cons, unbroken_not_cr, Hc by done.
    by rewrite IH, <-(assoc_L (++)).
Qed.

Lemma splitlines_aux_newline cur t :
  splitlines_aux cur (10 :: t) = cur :: splitlines_aux [] t.
Proof. done. Qed.

Lemma splitlines_join cs :
  Forall (λ l, l ≠ [] ∧ unbroken l) cs → splitlines (join [10] cs) = cs.
Proof.
  unfold splitlines. induction 1 as [|c cs [Hne Hc] Hcs IH]; [done|].
  destruct cs as [|c2 cs].
  - cbn [join]. pose proof (splitlines_aux_skip [] c [] Hc) as Hsk.
    rewrite (right_id_L [] (++)) in Hsk. rewrite Hsk. simpl. by destruct c.
  - change (join [10] (c :: c2 :: cs)) with (c ++ 10 :: join [10] (c2 :: cs)).
    rewrite splitlines_aux_skip by done.
    by rewrite splitlines_aux_newline, IH.
Qed.

Lemma body_commands_join cs :
  Forall (λ l, l ≠ [] ∧ unbroken l ∧ strip l = l) cs →
  body_commands (join [10] cs) = cs.
Proof.
  intros Hcs. unfold body_commands. rewrite splitlines_join.
  - induction Hcs as [|c cs (Hne & _ & Hs) _ IH]; [done|].
    rewrite fmap_cons, filter_cons, Hs, IH. by destruct (decide (c ≠ [])).
  - eapply Forall_impl; [done|]. naive_solver.
Qed.

(** The commands of a parse are stripped, non-empty and without line
    boundaries; the explanation is stripped. *)
Lemma body_commands_wf body :
  Forall (λ l, l ≠ [] ∧ unbroken l ∧ strip l = l) (body_commands body).
Proof.
  unfold body_commands. apply Forall_forall. intros l Hl.
  apply list_elem_of_filter in Hl as [Hne Hl].
  apply list_elem_of_fmap in Hl as (l' & -> & Hl').
  split_and!; [done| |apply strip_idemp].
  apply strip_unbroken.
  pose proof (splitlines_aux_unbroken [] body ltac:(constructor)) as Hall.
  rewrite Forall_forall in Hall. by apply Hall.
Qed.

Lemma parse_ai_response_wf text :
  strip (parse_ai_response text).1 = (parse_ai_response text).1
  ∧ Forall (λ l, l ≠ [] ∧ unbroken l ∧ strip l = l)
           (parse_ai_response text).2.
Proof.
  unfold parse_ai_response. destruct (re_search text) as [[start body]|].
  - simpl. split; [apply strip_idemp|].
    rewrite filter_strip_fmap. apply body_commands_wf.
  - simpl. split; [apply strip_idemp|constructor].
Qed.

End ReconstructionFacts.

Section Reconstruction.
Implicit Types (s t l c body rest : list N) (cs : list (list N)).

Lemma unbroken_no_newline l : unbroken l → 10 ∉ l.
Proof.
  intros Hl Hin. rewrite Forall_forall in Hl. by specialize (Hl 10 Hin).
Qed.

Lemma join_then_newline c cs rest :
  ∃ t, join [10] (c :: cs) ++ block_close ++ rest = c ++ 10 :: t.
Proof.
  destruct cs as [|c2 cs].
  - by exists (fence ++ rest).
  - exists (join [10] (c2 :: cs) ++ block_close ++ rest).
    change (join [10] (c :: c2 :: cs)) with (c ++ 10 :: join [10] (c2 :: cs)).
    by rewrite <-(assoc_L (++)).
Qed.

Lemma no_fence_before_newline c t :
  startswith fence c = false → startswith fence (c ++ 10 :: t) = false.
Proof.
  intros Hc. destruct (startswith fence (c ++ 10 :: t)) eqn:E; [|done].
  apply startswith_before in E; [congruence|].
  unfold fence. set_solver.
Qed.

(** The lazy group of the rebuilt block is the whole joined command list. *)
Lemma lazy_until_join cs rest :
  Forall (λ l, unbroken l) cs →
  Forall (λ l, startswith fence l = false) (tail cs) →
  lazy_until block_close (join [10] cs ++ block_close ++ rest)
  = Some (join [10] cs).
Proof.
  induction 1 as [|c cs Hc Hcs IH]; intros Htail; [done|].
  apply unbroken_no_newline in Hc. destruct cs as [|c2 cs].
  - cbn [join]. rewrite lazy_until_skip by done.
    change (lazy_until block_close (block_close ++ rest)) with (Some (@nil N)).
    simpl. by rewrite (right_id_L [] (++)).
  - simpl in Htail. apply Forall_cons in Htail as Htail'.
    destruct Htail' as [Hc2 Htl].
    destruct (join_then_newline c2 cs rest) as [t Ht].
    change (join [10] (c :: c2 :: cs)) with (c ++ 10 :: join [10] (c2 :: cs)).
    rewrite <-(assoc_L (++)). cbn [app].
    rewrite lazy_until_skip by done.
    rewrite lazy_until_newline by (rewrite Ht; by apply no_fence_before_newline).
    by rewrite IH by (destruct cs; simpl; auto).
Qed.

(** Parsing the reconstruction of a well-formed pair gives the pair. *)
Lemma parse_reconstruct expl cs :
  strip expl = expl →
  find fence_open expl = None →
  Forall (λ l, l ≠ [] ∧ unbroken l ∧ strip l = l) cs →
  Forall (λ l, startswith fence l = false) (tail cs) →
  parse_ai_response (reconstruct (expl, cs)) = (expl, cs).
Proof.
  intros Hexpl Hnone Hcs Htail.
  set (body := join [10] cs).
  assert (Hrec : reconstruct (expl, cs)
                 = (expl ++ [10]) ++ block_open ++ body ++ block_close).
  { unfold reconstruct. simpl. by rewrite <-(assoc_L (++)). }
  assert (Hfalse : ∀ j, (j < length (expl ++ [10%N]))%nat →
            startswith fence_open (drop j (reconstruct (expl, cs))) = false).
  { intros j Hj. rewrite Hrec, drop_app_le by lia.
    rewrite length_app in Hj. simpl in Hj.
    destruct (decide (j = length expl)) as [->|Hne].
    - by rewrite drop_app_length.
    - rewrite drop_app_le, <-!(assoc_L (++)) by lia.
      destruct (startswith fence_open _) eqn:E; [|done].
      apply startswith_before in E; [|unfold fence_open; set_solver].
      rewrite find_None in Hnone. by rewrite Hnone in E. }
  assert (Hhere : match_here (drop (length (expl ++ [10]))
                    (reconstruct (expl, cs))) = Some body).
  { rewrite Hrec, drop_app_length. unfold match_here.
    rewrite startswith_app, drop_app_length.
    rewrite <-(right_id_L [] (++) block_close).
    apply lazy_until_join; [|done].
    eapply Forall_impl; [done|]. naive_solver. }
  assert (Hre : re_search (reconstruct (expl, cs))
                = Some (length (expl ++ [10]), body)).
  { apply re_search_Some. split; [done|]. intros j Hj.
    destruct (match_here (drop j _)) eqn:E; [|done].
    apply match_here_fence in E. by rewrite Hfalse in E. }
  assert (Hfind : find fence_open (reconstruct (expl, cs))
                  = Some (length (expl ++ [10]))).
  { apply find_Some. split; [|done].
    eapply match_here_fence. done. }
  unfold parse_ai_response. rewrite Hre.
  rewrite split_hd, Hfind by apply fence_open_nonempty.
  rewrite Hrec at 1. rewrite take_app_length.
  rewrite strip_spaces_r, Hexpl by auto.
  rewrite filter_strip_fmap. f_equal.
  etrans; [apply body_commands_strip|]. by apply body_commands_join.
Qed.

End Reconstruction.

(** C6, as stated, fails: [indented_fence] contains the marker [```bash]
    once, and parsing the reconstruction of its parse loses the commands
    after the line that reads as a fence; [empty_block] contains it once
    too, and the reconstruction of its parse parses to another
    explanation. *)
Lemma reparse_stable_fails :
  (occurrences fence_open indented_fence ≤ 1)%nat
  ∧ ¬ reparse_stable indented_fence
  ∧ (occurrences fence_open empty_block ≤ 1)%nat
  ∧ ¬ reparse_stable empty_block.
Proof. split_and!; vm_compute; (lia || discriminate). Qed.

(** C6, amended: for any text whose parsed explanation does not contain the
    marker [```bash] and none of whose parsed commands after the first
    begins with [```], parsing the reconstruction of the parse (the
    explanation followed by a rebuilt [```bash] fence with the commands)
    yields the same explanation and the same command list. *)
Theorem reparse_reconstruction (text : str) :
  find fence_open (parse_ai_response text).1 = None →
  Forall (λ l, startswith fence l = false)
         (tail (parse_ai_response text).2) →
  parse_ai_response (reconstruct (parse_ai_response text))
  = parse_ai_response text.
Proof.
  intros Hnone Htail. destruct (parse_ai_response_wf text) as [Hexpl Hcs].
  destruct (parse_ai_response text) as [expl cs]. by apply parse_reconstruct.
Qed.

Lemma reparse_reconstruction_witness :
  find fence_open (parse_ai_response scenario3).1 = None
  ∧ Forall (λ l, startswith fence l = false)
           (tail (parse_ai_response scenario3).2)
  ∧ parse_ai_response (reconstruct (parse_ai_response scenario3))
    = parse_ai_response scenario3.
Proof.
  assert (H1 : find fence_open (parse_ai_response scenario3).1 = None)
    by reflexivity.
  assert (H2 : Forall (λ l, startswith fence l = false)
                 (tail (parse_ai_response scenario3).2))
    by (vm_compute; repeat constructor).
  split_and!; [exact H1|exact H2|exact (reparse_reconstruction scenario3 H1 H2)].
Defined.

(** ** Command Executor *)

Section Executor.
Implicit Types (command : list N).

(** The arguments [execute_command] gives to [subprocess.run]. *)
Local Abbreviation shell_call command :=
  (SubprocessRun {| args := command; shell := true; text := true;
                    capture_output := true; timeout := 30;
                    stdin := DEVNULL |}).

(** A command that starts, once stripped, with [cd ] never reaches
    [subprocess.run], whatever the operating system answers. *)
Lemma cd_never_calls_shell command :
  startswith (lit "cd ") (strip command) = true →
  ¬ calls_shell (execute_command command).
Proof.
  intros Hcd. unfold execute_command. rewrite Hcd. simpl.
  intros [Hf|[r Hr]]; [done|].
  destruct r as [p|e]; simpl in Hr; [|done].
  destruct Hr as [Hf|[r Hr]]; [done|].
  destruct r as [u|e]; simpl in Hr; [|done].
  destruct Hr as [Hf|[r Hr]]; [done|]. by destruct r.
Qed.

(** The default [~] of [cd_target] is never used: a stripped command that
    starts with [cd ] has an argument.  A [cd] without argument does not
    take the branch of the directory change. *)
Lemma cd_branch_has_argument command :
  startswith (lit "cd ") (strip command) = true →
  cd_target (strip command) = strip (drop 3 (strip command))
  ∧ strip (drop 3 (strip command)) ≠ [].
Proof.
  intros Hcd. apply startswith_prefix in Hcd as [r Hr].
  assert (Hne : strip (drop 3 (strip command)) ≠ []).
  { rewrite Hr. change (drop 3 (lit "cd " ++ r)) with r. intros Hs.
    apply strip_nil_spaces in Hs.
    assert (Hstrip : strip (strip command) = lit "cd").
    { rewrite Hr. change (lit "cd " ++ r) with (lit "cd" ++ (32 :: r)).
      rewrite strip_spaces_r; [done|]. by constructor. }
    rewrite strip_idemp, Hr in Hstrip. discriminate Hstrip. }
  split; [|done]. unfold cd_target. by destruct (strip (drop 3 _)).
Qed.

(** C1, at the bare word [cd]: the command is handed to the shell, and on
    every host the working directory of the process stays what it was; it
    does not become the home directory.  The claim holds for the commands
    with an argument ([cd_never_calls_shell]); the default to the home
    directory is in the code and cannot be reached
    ([cd_branch_has_argument]). *)
Theorem bare_cd_is_run_by_shell :
  (∃ k, execute_command (lit "cd") = Do (shell_call (lit "cd")) k)
  ∧ calls_shell (execute_command (lit "cd"))
  ∧ ∀ E (H : Host E) (w : world E),
      cwd (interp (execute_command (lit "cd")) w).1 = cwd w.
Proof.
  split_and!.
  - by eexists.
  - by left.
  - intros E ? w. simpl. destruct (host_run _ _ _) as [e' r].
    by destruct r.
Qed.

(** C7: every command that does not take the branch of the directory change
    is run through a shell, with stdin disconnected and a timeout of 30
    seconds; when the timeout expires the result is a warning-marked
    message that names the command and says that it timed out, and any
    other exception of the run is returned as a warning-marked message. *)
Theorem shell_command_timeout_and_errors command :
  startswith (lit "cd ") (strip command) = false →
  ∃ k, execute_command command = Do (shell_call (strip command)) k
       ∧ k TimeoutExpired
         = Ret (warning_mark ++ lit " Command '" ++ strip command
                ++ lit "' timed out (waiting for input?)")
       ∧ ∀ e, k (RunRaised e)
              = Ret (warning_mark ++ lit " Execution error: " ++ e).
Proof.
  intros Hcd. unfold execute_command. rewrite Hcd. by eexists.
Qed.

Lemma shell_command_timeout_and_errors_witness :
  startswith (lit "cd ") (strip (lit "sleep 60")) = false
  ∧ ∃ k, execute_command (lit "sleep 60")
         = Do (shell_call (strip (lit "sleep 60"))) k
       ∧ k TimeoutExpired
         = Ret (warning_mark ++ lit " Command '" ++ strip (lit "sleep 60")
                ++ lit "' timed out (waiting for input?)")
       ∧ ∀ e, k (RunRaised e)
              = Ret (warning_mark ++ lit " Execution error: " ++ e).
Proof.
  split; [reflexivity|].
  apply (shell_command_timeout_and_errors (lit "sleep 60")). reflexivity.
Defined.

Context {E : Type} `{Host E}.

(** A directory change that succeeds: the working directory becomes the
    directory entered, and the message names it. *)
Lemma cd_success command (w : world E) target d :
  startswith (lit "cd ") (strip command) = true →
  host_expanduser (env w) (cd_target (strip command)) = Returned target →
  resolve_dir (env w) (cwd w) target = Returned d →
  getcwd_error (env w) d = None →
  interp (execute_command command) w
  = ({| cwd := d; env := env w |},
     check_mark ++ lit " (Working directory changed to: " ++ d ++ lit ")").
Proof.
  intros Hcd Hexp Hdir Hget. unfold execute_command. rewrite Hcd.
  cbn [interp handle]. rewrite Hexp. cbn [interp handle]. rewrite Hdir.
  cbn [interp handle cwd env]. by rewrite Hget.
Qed.

(** C8: when the directory change of a command that starts with [cd ]
    fails, the result is a warning-marked message that wraps the error, and
    the working directory (with the rest of the process) is unchanged. *)
Theorem failed_cd_leaves_cwd command (w : world E) target e :
  startswith (lit "cd ") (strip command) = true →
  host_expanduser (env w) (cd_target (strip command)) = Returned target →
  resolve_dir (env w) (cwd w) target = Raised e →
  interp (execute_command command) w
  = (w, warning_mark ++ lit " Error in 'cd': " ++ e)
  ∧ cwd (interp (execute_command command) w).1 = cwd w.
Proof.
  intros Hcd Hexp Hdir.
  assert (interp (execute_command command) w
          = (w, warning_mark ++ lit " Error in 'cd': " ++ e)) as ->; [|done].
  unfold execute_command. rewrite Hcd.
  cbn [interp handle]. rewrite Hexp. cbn [interp handle]. by rewrite Hdir.
Qed.

End Executor.

Lemma failed_cd_leaves_cwd_witness :
  startswith (lit "cd ") (strip cd_nonexistent) = true
  ∧ @host_expanduser _ toy_host (env toy_world)
      (cd_target (strip cd_nonexistent)) = Returned (lit "/nonexistent")
  ∧ @resolve_dir _ toy_host (env toy_world) (cwd toy_world)
      (lit "/nonexistent") = Raised no_such_directory
  ∧ @interp _ toy_host _ (execute_command cd_nonexistent) toy_world
    = (toy_world, warning_mark ++ lit " Error in 'cd': " ++ no_such_directory)
  ∧ cwd (@interp _ toy_host _ (execute_command cd_nonexistent) toy_world).1
    = cwd toy_world.
Proof.
  split_and!; [reflexivity..| |];
    apply (@failed_cd_leaves_cwd _ toy_host cd_nonexistent toy_world
             (lit "/nonexistent") no_such_directory); reflexivity.
Defined.

(** ** Conversation State and Turn Orchestrator *)

(** Every entry of the history has exactly one text segment. *)
Local Abbreviation single_part h :=
  (Forall (λ t : Turn, ∃ p, parts t = [p]) h).

(** A history read as the conversation it is. *)
Local Abbreviation as_conversation h :=
  ((λ t : Turn, (role_name (turn_role t), parts t)) <$> h).

Section Backend.
Context `{Config}.

Lemma openai_messages_full (h : list Turn) :
  single_part h →
  ∃ ms, mapM (λ t, pair (role_name (turn_role t)) <$> head (parts t)) h
        = Some ms
        ∧ (λ m : list N * list N, (m.1, [m.2])) <$> ms = as_conversation h.
Proof.
  induction 1 as [|t h [p Hp] _ (ms & Hms & Hconv)].
  - by exists [].
  - exists ((role_name (turn_role t), p) :: ms).
    split; [cbn [mapM]; by rewrite Hms, Hp|].
    rewrite !fmap_cons, Hconv, Hp. done.
Qed.

(** The request built from a history of single-segment entries carries the
    whole history, in order. *)
Lemma ai_request_full (h : list Turn) :
  single_part h →
  ∃ r, ai_request h = Returned r ∧ conversation r = as_conversation h.
Proof.
  intros Hh. unfold ai_request. destruct API_PROVIDER.
  - eexists. split; [done|]. simpl. rewrite <-list_fmap_compose.
    by apply list_fmap_ext.
  - destruct (openai_messages_full h Hh) as (ms & -> & Hconv).
    eexists. split; [done|]. done.
Qed.

End Backend.

(** The program waits at the outer prompt, or has ended with an exception. *)
Local Abbreviation idle s :=
  (at_phase s = AwaitingUserInput ∨ at_phase s = Crashed).

Section Orchestrator.
Context {E : Type} `{Interpreter} `{Config} `{Console} `{Host E}.
Implicit Types (h : list Turn) (w : world E) (s : session E).

Lemma await_user_input_spec h w :
  chat_history (await_user_input h w) = h
  ∧ host (await_user_input h w) = w
  ∧ idle (await_user_input h w).
Proof.
  unfold await_user_input. destruct (getcwd_error _ _); [by auto|].
  destruct (console_print _); simpl; auto.
Qed.

Lemma on_error_spec e h w :
  chat_history (on_error e h w) = h
  ∧ host (on_error e h w) = w
  ∧ idle (on_error e h w).
Proof.
  unfold on_error. destruct (console_print _); [|by auto].
  apply await_user_input_spec.
Qed.

Lemma on_response_spec h w text :
  chat_history (on_response h w text) = h ++ [model_turn text]
  ∧ host (on_response h w text) = w.
Proof.
  unfold on_response.
  destruct (parse_ai_response text) as [explanation commands].
  destruct (markdown_print _); [|split; apply on_error_spec].
  destruct commands; [split; apply await_user_input_spec|].
  destruct (print_suggestions _ _); [done|split; apply on_error_spec].
Qed.

Lemma on_response_phase h w text :
  idle (on_response h w text)
  ∨ at_phase (on_response h w text)
    = AwaitingUserDecision (parse_ai_response text).2
    ∧ (parse_ai_response text).2 ≠ [].
Proof.
  unfold on_response.
  destruct (parse_ai_response text) as [explanation commands].
  destruct (markdown_print _); [|left; apply on_error_spec].
  destruct commands; [left; apply await_user_input_spec|].
  destruct (print_suggestions _ _); [by right|left; apply on_error_spec].
Qed.

Lemma after_choice_history h w to_execute tool_output_str :
  chat_history (after_choice h w to_execute tool_output_str) = h
  ∨ ∃ content,
      chat_history (after_choice h w to_execute tool_output_str)
      = h ++ [user_turn content].
Proof.
  unfold after_choice.
  destruct to_execute as [|cmd rest].
  - destruct tool_output_str; simpl; eauto.
  - destruct (run_commands (cmd :: rest) w) as [w' [outs|e]].
    + destruct (tool_output_header ++ _); simpl; eauto.
    + left. apply on_error_spec.
Qed.

Lemma decide_choice_history h w commands keuze :
  chat_history (decide_choice h w commands keuze) = h
  ∨ ∃ content,
      chat_history (decide_choice h w commands keuze)
      = h ++ [user_turn content].
Proof.
  unfold decide_choice.
  repeat case_bool_decide; try apply after_choice_history.
  destruct (parse_selection _ _); [simpl; eauto|].
  destruct (mapM _ _); [apply after_choice_history|left; apply on_error_spec].
Qed.

Local Ltac history_step :=
  simpl;
  first [ by left
        | right; eexists _, _; split; [|reflexivity]; reflexivity ].

(** A step leaves the history as it is or appends one entry with a single
    text segment. *)
Lemma step_history s e s' :
  step s e = Some s' →
  chat_history s' = chat_history s
  ∨ ∃ t p, parts t = [p] ∧ chat_history s' = chat_history s ++ [t].
Proof.
  unfold step. destruct (at_phase s) as [| |commands| |], e as [[line|]|sent r|];
    try discriminate.
  - case_bool_decide; intros [= <-]; history_step.
  - intros [= <-]; history_step.
  - destruct (ai_request _) as [messages|]; [|done].
    case_bool_decide; [|done].
    destruct r as [text|err]; intros [= <-].
    + right. exists (model_turn text), text. split; [done|].
      apply on_response_spec.
    + left. apply on_error_spec.
  - destruct (ai_request _); [done|]. intros [= <-]. left. apply on_error_spec.
  - intros [= <-].
    destruct (decide_choice_history (chat_history s) (host s) commands
                (lower (prompt_ask (Some (lit "y")) line)))
      as [->|[content ->]]; history_step.
  - intros [= <-]. left. apply on_error_spec.
Qed.

Lemma step_prefix s e s' :
  step s e = Some s' → chat_history s `prefix_of` chat_history s'.
Proof.
  intros [->|(t & p & _ & ->)]%step_history; [done|].
  by apply prefix_app_r.
Qed.

Lemma step_single_part s e s' :
  step s e = Some s' →
  single_part (chat_history s) → single_part (chat_history s').
Proof.
  intros [->|(t & p & Hp & ->)]%step_history Hs; [done|].
  apply Forall_app. split; [done|]. constructor; eauto.
Qed.

Lemma run_prefix s events s' :
  run s events = Some s' → chat_history s `prefix_of` chat_history s'.
Proof.
  revert s. induction events as [|e events IH]; intros s; simpl.
  - by intros [= ->].
  - destruct (step s e) as [s1|] eqn:Hstep; [|done]. intros Hrun.
    etrans; [by eapply step_prefix|by apply IH].
Qed.

Lemma run_single_part s events s' :
  run s events = Some s' →
  single_part (chat_history s) → single_part (chat_history s').
Proof.
  revert s. induction events as [|e events IH]; intros s; simpl.
  - by intros [= ->].
  - destruct (step s e) as [s1|] eqn:Hstep; [|done]. intros Hrun Hs.
    eapply IH; [done|]. by eapply step_single_part.
Qed.

Lemma start_spec w :
  chat_history (start w) = [] ∧ host (start w) = w ∧ idle (start w).
Proof.
  unfold start. destruct (console_print _); [|by auto].
  destruct (console_print _); [|by auto]. apply await_user_input_spec.
Qed.

Lemma reachable_single_part s : reachable s → single_part (chat_history s).
Proof.
  intros (w & events & Hrun). eapply run_single_part; [done|].
  rewrite (proj1 (start_spec w)). constructor.
Qed.

(** C9: across every transition of the loop the conversation state is
    append-only: the history before the transition is a prefix of the
    history after it, so that no entry is changed, removed or moved; and
    every transition from the point where the program calls the backend is
    an answer to a request the backend has received, which is the request
    built from the history, and this request carries the whole history,
    every entry in order, without windowing or truncation. *)
Theorem chat_history_append_only s e s' :
  reachable s →
  step s e = Some s' →
  chat_history s `prefix_of` chat_history s'
  ∧ (at_phase s = AIWorking →
     ∃ sent r,
       e = Answered sent r
       ∧ ai_request (chat_history s) = Returned sent
       ∧ conversation sent = as_conversation (chat_history s)).
Proof.
  intros Hreach Hstep. split; [by eapply step_prefix|].
  intros Hphase.
  destruct (ai_request_full (chat_history s)) as (messages & Hreq & Hconv);
    [by apply reachable_single_part|].
  revert Hstep. unfold step. rewrite Hphase, Hreq.
  destruct e as [line|sent r|]; [done| |done].
  case_bool_decide as Hsent; [|done]. subst sent. intros _.
  by exists messages, r.
Qed.

(** At the prompt for a decision, an input that is neither y/yes nor n/no
    and selects nothing is appended, as [keuze] holds it, as a new user
    entry; no command is run and no tool output is added. *)
Lemma interrupt_step h w commands line :
  let keuze := lower (prompt_ask (Some (lit "y")) line) in
  ¬ (keuze = lit "y" ∨ keuze = lit "yes") →
  ¬ (keuze = lit "n" ∨ keuze = lit "no") →
  parse_selection keuze (Z.of_nat (length commands)) = [] →
  step {| chat_history := h; at_phase := AwaitingUserDecision commands;
          host := w |} (Typed (Some line))
  = Some {| chat_history := h ++ [user_turn keuze];
            at_phase := AIWorking; host := w |}.
Proof.
  intros keuze Hy Hn Hsel. unfold step. cbn [at_phase chat_history host].
  fold keuze. unfold decide_choice.
  by rewrite !bool_decide_false, Hsel by done.
Qed.

(** At the prompt for a decision an empty line is the answer [y]: the input
    does not reach the selection parser, and is neither an interrupt nor a
    skip. *)
Lemma empty_decision_is_yes h w commands :
  step {| chat_history := h; at_phase := AwaitingUserDecision commands;
          host := w |} (Typed (Some []))
  = Some (after_choice h w commands []).
Proof.
  unfold step. cbn [at_phase chat_history host].
  change (lower (prompt_ask (Some (lit "y")) [])) with (lit "y").
  unfold decide_choice. by rewrite bool_decide_true by auto.
Qed.

(** C10, where the code diverges: at the prompt for a decision an empty
    line is the answer [y], but not all proposed commands are executed.
    The output of a command is printed as markup; when this print raises,
    the commands after it are not run and no tool output is added to the
    history; the handler prints the message of the exception, and when this
    print raises too, the program ends.  The host is left as the first
    command left it. *)
Theorem empty_decision_batch_aborted h w cmd rest w1 output e e' :
  console_print (executing_markup cmd) = Returned () →
  interp (execute_command cmd) w = (w1, output) →
  console_print (output_markup output) = Raised e →
  console_print (error_markup e) = Raised e' →
  step {| chat_history := h; at_phase := AwaitingUserDecision (cmd :: rest);
          host := w |} (Typed (Some []))
  = step {| chat_history := h; at_phase := AwaitingUserDecision (cmd :: rest);
            host := w |} (Typed (Some (lit "y")))
  ∧ step {| chat_history := h; at_phase := AwaitingUserDecision (cmd :: rest);
            host := w |} (Typed (Some []))
    = Some {| chat_history := h; at_phase := Crashed; host := w1 |}.
Proof.
  intros Hannounce Hrun Hprint Hhandler. split; [done|].
  rewrite empty_decision_is_yes. unfold after_choice.
  cbn [run_commands]. rewrite Hannounce, Hrun, Hprint.
  unfold on_error. by rewrite Hhandler.
Qed.

End Orchestrator.

Section OrchestratorAtInputs.
Context {E : Type} `{Interpreter} `{Config} `{Console} `{Host E}.

(** C4, at the input [Why?]: the input is neither y/yes nor n/no and
    selects nothing; no command is run and no tool output is added, and the
    entry appended to the history is the lower-cased [why?], not the input
    as typed.  The outer prompt, in contrast, lower-cases its input for the
    comparison with exit/quit only and appends it as typed. *)
Theorem interrupt_is_lowercased (h : list Turn) (w : world E) commands :
  step {| chat_history := h; at_phase := AwaitingUserDecision commands;
          host := w |} (Typed (Some (lit "Why?")))
  = Some {| chat_history := h ++ [user_turn (lit "why?")];
            at_phase := AIWorking; host := w |}
  ∧ lit "why?" ≠ lit "Why?"
  ∧ step {| chat_history := h; at_phase := AwaitingUserInput; host := w |}
         (Typed (Some (lit "Why?")))
    = Some {| chat_history := h ++ [user_turn (lit "Why?")];
              at_phase := AIWorking; host := w |}.
Proof.
  split_and!; [|done|done].
  apply (interrupt_step h w commands (lit "Why?")).
  - intros [?|?]; discriminate.
  - intros [?|?]; discriminate.
  - reflexivity.
Qed.

End OrchestratorAtInputs.

Lemma chat_history_append_only_witness :
  @reachable _ ascii_interpreter toy_config markup_console toy_host asking
  ∧ @step _ ascii_interpreter toy_config markup_console toy_host asking
      (Answered asking_request (Returned scenario3)) = Some deciding
  ∧ chat_history asking `prefix_of` chat_history deciding
  ∧ (at_phase asking = AIWorking →
     ∃ sent r,
       Answered asking_request (Returned scenario3) = Answered sent r
       ∧ @ai_request toy_config (chat_history asking) = Returned sent
       ∧ conversation sent = as_conversation (chat_history asking)).
Proof.
  assert (Hreach : @reachable _ ascii_interpreter toy_config markup_console
                     toy_host asking)
    by (exists toy_world, [Typed (Some (lit "where am I?"))]; reflexivity).
  assert (Hstep : @step _ ascii_interpreter toy_config markup_console toy_host
                    asking (Answered asking_request (Returned scenario3))
                  = Some deciding)
    by reflexivity.
  split_and!; [exact Hreach|exact Hstep|..];
    apply (@chat_history_append_only _ ascii_interpreter toy_config
             markup_console toy_host asking
             (Answered asking_request (Returned scenario3)) deciding
             Hreach Hstep).
Defined.

Lemma empty_decision_batch_aborted_witness :
  @console_print markup_console (executing_markup printf_tag) = Returned ()
  ∧ @interp _ tag_host _ (execute_command printf_tag) toy_world
    = ({| cwd := lit "/"; env := [printf_tag] |}, lit "[/x]")
  ∧ @console_print markup_console (output_markup (lit "[/x]"))
    = Raised tag_error
  ∧ @console_print markup_console (error_markup tag_error)
    = Raised (closes_nothing (lit "/x") 59)
  ∧ @step _ ascii_interpreter toy_config markup_console tag_host tag_deciding
      (Typed (Some []))
    = @step _ ascii_interpreter toy_config markup_console tag_host
        tag_deciding (Typed (Some (lit "y")))
  ∧ @step _ ascii_interpreter toy_config markup_console tag_host tag_deciding
      (Typed (Some []))
    = Some {| chat_history := tag_asked; at_phase := Crashed;
              host := {| cwd := lit "/"; env := [printf_tag] |} |}.
Proof.
  assert (H1 : @console_print markup_console (executing_markup printf_tag)
               = Returned ()) by reflexivity.
  assert (H2 : @interp _ tag_host _ (execute_command printf_tag) toy_world
               = ({| cwd := lit "/"; env := [printf_tag] |}, lit "[/x]"))
    by reflexivity.
  assert (H3 : @console_print markup_console (output_markup (lit "[/x]"))
               = Raised tag_error) by reflexivity.
  assert (H4 : @console_print markup_console (error_markup tag_error)
               = Raised (closes_nothing (lit "/x") 59)) by reflexivity.
  split_and!; [exact H1|exact H2|exact H3|exact H4|..];
    apply (@empty_decision_batch_aborted _ ascii_interpreter toy_config
             markup_console tag_host tag_asked toy_world printf_tag
             [lit "pwd"] _ _ _ _ H1 H2 H3 H4).
Defined.

(** ** The scenarios of section 8 *)

Example scenario_selection :
  @parse_selection ascii_interpreter (lit "1,3-4") 5 = [0; 2; 3]%Z.
Proof. reflexivity. Qed.

Example scenario_empty_selection :
  @parse_selection ascii_interpreter [] 5 = [].
Proof. reflexivity. Qed.

Example scenario_order_and_duplicates :
  @parse_selection ascii_interpreter (lit "4-5, 2,x,9, 2-4,5-4") 5
  = [1; 2; 3; 4]%Z.
Proof. reflexivity. Qed.

Example scenario_block :
  parse_ai_response scenario3 = (lit "Do X.", [lit "ls -la"; lit "pwd"]).
Proof. reflexivity. Qed.

Example scenario_no_block :
  parse_ai_response (lit "All done!") = (lit "All done!", []).
Proof. reflexivity. Qed.

Example scenario_cd_home :
  @interp _ toy_host _ (execute_command (lit "cd ~")) toy_world
  = ({| cwd := lit "/root"; env := [] |},
     check_mark ++ lit " (Working directory changed to: /root)").
Proof. reflexivity. Qed.

Example scenario_bare_cd :
  @interp _ toy_host _ (execute_command (lit "cd")) toy_world
  = ({| cwd := lit "/"; env := [lit "cd"] |},
     check_mark ++ lit " (Command executed, no output)").
Proof. reflexivity. Qed.

(** * Further properties of the code *)

(** ** Selections and the commands they run *)

Section SelectedCommands.
Implicit Types (commands : list (list N)) (l : list Z).

(** Indexing with ascending indices within bounds never raises, and gives
    a subsequence. *)
Lemma ascending_lookup commands l (k : nat) :
  StronglySorted Z.lt l →
  Forall (λ i, Z.of_nat k ≤ i < Z.of_nat (length commands))%Z l →
  ∃ t, mapM (py_index commands) l = Some t
       ∧ length t = length l
       ∧ t `sublist_of` drop k commands.
Proof.
  intros Hs. revert k. induction Hs as [|i l Hs IH Hlt]; intros k Hb.
  - exists []. split_and!; [done..|]. apply sublist_nil_l.
  - apply Forall_cons in Hb as [Hi Hb].
    destruct (lookup_lt_is_Some_2 commands (Z.to_nat i) ltac:(lia))
      as [c Hc].
    destruct (IH (S (Z.to_nat i))) as (t & Ht & Hlen & Hsub).
    { rewrite Forall_forall in Hlt, Hb |- *. intros j Hj.
      specialize (Hlt j Hj). specialize (Hb j Hj). lia. }
    exists (c :: t). split_and!.
    + assert (Hp : py_index commands i = Some c)
        by (unfold py_index; by rewrite bool_decide_true by lia).
      change (mapM (py_index commands) (i :: l))
        with (y ← py_index commands i;
              k ← mapM (py_index commands) l; mret (y :: k)).
      by rewrite Hp, Ht.
    + simpl. by rewrite Hlen.
    + replace (drop k commands)
        with (take (Z.to_nat i - k) (drop k commands)
              ++ c :: drop (S (Z.to_nat i)) commands).
      { apply sublist_inserts_l. by apply sublist_skip. }
      rewrite <-(take_drop (Z.to_nat i - k) (drop k commands)) at 2.
      f_equal. rewrite drop_drop.
      replace (k + (Z.to_nat i - k))%nat with (Z.to_nat i) by lia.
      symmetry. by apply drop_S.
Qed.

End SelectedCommands.

Section Decisions.
Context {E : Type} `{Interpreter} `{Config} `{Console} `{Host E}.
Implicit Types (h : list Turn) (w : world E) (s : session E).

(** The commands a selection picks: never an [IndexError]. *)
Lemma selection_lookup commands keuze :
  ∃ t, mapM (py_index commands)
         (parse_selection keuze (Z.of_nat (length commands))) = Some t
       ∧ length t
         = length (parse_selection keuze (Z.of_nat (length commands)))
       ∧ t `sublist_of` commands.
Proof.
  pose proof (ascending_lookup commands
    (parse_selection keuze (Z.of_nat (length commands))) 0) as Hl.
  unfold parse_selection in *.
  apply Hl.
  - apply sorted_distinct_ascending, NoDup_elements.
  - rewrite merge_sort_Permutation, Forall_forall. intros i Hi.
    apply elem_of_elements in Hi. apply selected_bounds in Hi. lia.
Qed.

(** Whatever is typed at the prompt for a decision, indexing the proposed
    commands with the parsed selection never raises: the commands picked
    are the proposed commands at the selected positions, a subsequence of
    the proposed commands, each at most once and in the order in which they
    were listed; and when the input is none of y, yes, n, no and picks a
    command, the loop goes on with exactly these commands. *)
Theorem selected_commands_subsequence h w commands keuze :
  ∃ to_execute,
    mapM (py_index commands)
      (parse_selection keuze (Z.of_nat (length commands))) = Some to_execute
    ∧ to_execute `sublist_of` commands
    ∧ (∀ (j : nat) i,
         parse_selection keuze (Z.of_nat (length commands)) !! j = Some i →
         (0 ≤ i)%Z ∧ to_execute !! j = commands !! Z.to_nat i)
    ∧ (¬ (keuze = lit "y" ∨ keuze = lit "yes") →
       ¬ (keuze = lit "n" ∨ keuze = lit "no") →
       to_execute ≠ [] →
       decide_choice h w commands keuze = after_choice h w to_execute []).
Proof.
  destruct (selection_lookup commands keuze) as (t & Ht & Hlen & Hsub).
  exists t. split_and!; [done..| |].
  - intros j i Hj.
    assert (0 ≤ i)%Z as Hi.
    { apply list_elem_of_lookup_2 in Hj. unfold parse_selection in Hj.
      rewrite merge_sort_Permutation in Hj.
      apply elem_of_elements, selected_bounds in Hj. lia. }
    split; [done|].
    apply mapM_Some in Ht.
    destruct (Forall2_lookup_l _ _ _ _ _ Ht Hj) as (c & Hc & Hp).
    rewrite Hc, <-Hp. unfold py_index. by rewrite bool_decide_true.
  - intros Hy Hn Hne. unfold decide_choice.
    rewrite !bool_decide_false by done.
    destruct (parse_selection keuze _) as [|i l]; [|by rewrite Ht].
    apply mapM_Some, Forall2_nil_inv_l in Ht. done.
Qed.

End Decisions.

(** ** What the loop keeps true *)

(** In the phases in which it matters, the last entry of the history: a
    user entry when the backend is called; at the prompt for a decision the
    model entry whose commands are proposed, and there are some. *)
Local Abbreviation turn_taking s :=
  (match at_phase s with
   | AIWorking => ∃ content, last (chat_history s) = Some (user_turn content)
   | AwaitingUserDecision commands =>
       commands ≠ []
       ∧ ∃ text, last (chat_history s) = Some (model_turn text)
                 ∧ commands = (parse_ai_response text).2
   | _ => True
   end).

Section LoopInvariants.
Context {E : Type} `{Interpreter} `{Config} `{Console} `{Host E}.
Implicit Types (h : list Turn) (w : world E) (s : session E).

Lemma idle_turn_taking s : idle s → turn_taking s.
Proof. by intros [->| ->]. Qed.

Lemma after_choice_outcome h w to_execute tool_output_str :
  to_execute ≠ [] ∨ tool_output_str ≠ [] →
  (∃ content,
     chat_history (after_choice h w to_execute tool_output_str)
     = h ++ [user_turn content]
     ∧ at_phase (after_choice h w to_execute tool_output_str) = AIWorking)
  ∨ idle (after_choice h w to_execute tool_output_str).
Proof.
  intros Hne. unfold after_choice. destruct to_execute as [|cmd rest].
  - destruct tool_output_str; [by destruct Hne|]. left. by eexists.
  - destruct (run_commands (cmd :: rest) w) as [w' [outs|e]].
    + left. by eexists.
    + right. apply on_error_spec.
Qed.

(** A decision on a non-empty list of proposed commands appends exactly one
    user entry and goes back to the backend, unless an exception ends the
    inner loop. *)
Lemma decide_choice_outcome h w commands keuze :
  commands ≠ [] →
  (∃ content,
     chat_history (decide_choice h w commands keuze)
     = h ++ [user_turn content]
     ∧ at_phase (decide_choice h w commands keuze) = AIWorking)
  ∨ idle (decide_choice h w commands keuze).
Proof.
  intros Hne. unfold decide_choice.
  case_bool_decide; [apply after_choice_outcome; by left|].
  case_bool_decide; [apply after_choice_outcome; by right|].
  destruct (parse_selection keuze _) as [|i l] eqn:Hsel.
  - left. by exists keuze.
  - destruct (mapM _ _) as [t|] eqn:Ht; [|right; apply on_error_spec].
    apply after_choice_outcome. left. intros ->. simpl in Ht.
    destruct (py_index commands i); simpl in Ht; [|done].
    by destruct (mapM (py_index commands) l).
Qed.

Lemma step_turn_taking s e s' :
  step s e = Some s' → turn_taking s → turn_taking s'.
Proof.
  unfold step. destruct (at_phase s) as [| |commands| |] eqn:Hphase,
    e as [[line|]|sent r|]; try discriminate.
  - case_bool_decide; intros [= <-] _; simpl; [done|].
    eexists. by rewrite last_snoc.
  - by intros [= <-].
  - destruct (ai_request _) as [messages|]; [|done].
    case_bool_decide; [|done].
    destruct r as [text|err]; intros [= <-] _.
    + destruct (on_response_phase (chat_history s) (host s) text)
        as [Hidle|[Hdec Hne]]; [by apply idle_turn_taking|].
      rewrite Hdec. split; [done|]. exists text.
      by rewrite (proj1 (on_response_spec _ _ _)), last_snoc.
    + apply idle_turn_taking, on_error_spec.
  - destruct (ai_request _); [done|]. intros [= <-] _.
    apply idle_turn_taking, on_error_spec.
  - intros [= <-] [Hne _].
    destruct (decide_choice_outcome (chat_history s) (host s) commands
                (lower (prompt_ask (Some (lit "y")) line)) Hne)
      as [(content & Hh & Hp)|Hidle]; [|by apply idle_turn_taking].
    rewrite Hp, Hh. eexists. by rewrite last_snoc.
  - intros [= <-] _. apply idle_turn_taking, on_error_spec.
Qed.

Lemma run_turn_taking s events s' :
  run s events = Some s' → turn_taking s → turn_taking s'.
Proof.
  revert s. induction events as [|e events IH]; intros s; simpl.
  - by intros [= ->].
  - destruct (step s e) as [s1|] eqn:Hstep; [|done]. intros Hrun Hs.
    eapply IH; [done|]. by eapply step_turn_taking.
Qed.

Lemma reachable_turn_taking s : reachable s → turn_taking s.
Proof.
  intros (w & events & Hrun). eapply run_turn_taking; [done|].
  apply idle_turn_taking, start_spec.
Qed.

(** Whenever the program calls the backend, the history it sends ends with
    a user entry: the task, a chat message, or the tool output. *)
Theorem backend_called_after_user_entry s :
  reachable s →
  at_phase s = AIWorking →
  ∃ content, last (chat_history s) = Some (user_turn content).
Proof.
  intros Hs Hphase. apply reachable_turn_taking in Hs. by rewrite Hphase in Hs.
Qed.

(** Whenever the program asks for a decision, there is at least one proposed
    command, and the proposed commands are those parsed from the last entry
    of the history, which is the answer of the model. *)
Theorem decision_on_last_model_entry s commands :
  reachable s →
  at_phase s = AwaitingUserDecision commands →
  commands ≠ []
  ∧ ∃ text, last (chat_history s) = Some (model_turn text)
            ∧ commands = (parse_ai_response text).2.
Proof.
  intros Hs Hphase. apply reachable_turn_taking in Hs. by rewrite Hphase in Hs.
Qed.

(** The host changes only by a decision: when a step has changed it, the
    program was at the prompt for a decision and the user answered y or
    yes, or typed a selection that picks at least one command. *)
Theorem host_changes_only_on_approval s e s' :
  step s e = Some s' →
  host s' ≠ host s →
  ∃ commands line,
    at_phase s = AwaitingUserDecision commands
    ∧ e = Typed (Some line)
    ∧ (lower (prompt_ask (Some (lit "y")) line) = lit "y"
       ∨ lower (prompt_ask (Some (lit "y")) line) = lit "yes"
       ∨ parse_selection (lower (prompt_ask (Some (lit "y")) line))
           (Z.of_nat (length commands)) ≠ []).
Proof.
  unfold step. destruct (at_phase s) as [| |commands| |] eqn:Hphase,
    e as [[line|]|sent r|]; try discriminate.
  - case_bool_decide; by intros [= <-].
  - by intros [= <-].
  - destruct (ai_request _) as [messages|]; [|done].
    case_bool_decide; [|done].
    destruct r as [text|err]; intros [= <-] Hhost; exfalso; apply Hhost.
    + apply on_response_spec.
    + apply on_error_spec.
  - destruct (ai_request _); [done|]. intros [= <-] Hhost.
    exfalso. apply Hhost, on_error_spec.
  - intros [= <-] Hhost. exists commands, line. split_and!; [done..|].
    revert Hhost. unfold decide_choice.
    case_bool_decide as Hy; [tauto|].
    case_bool_decide; [done|].
    destruct (parse_selection _ _); [done|]. intros _. by right; right.
  - intros [= <-] Hhost. exfalso. apply Hhost, on_error_spec.
Qed.

End LoopInvariants.

(** ** More on selection expressions *)

Section SplitFacts.
Implicit Types (s p cur rest : list N) (c : N) (ps : list (list N)).

Lemma startswith_single c c' s :
  c ≠ c' → startswith [c] (c' :: s) = false.
Proof. intros Hc. simpl. by rewrite (proj2 (N.eqb_neq c c')). Qed.

Lemma split_aux_single c cur s :
  c ∉ s → split_aux [c] 0 cur s = [cur ++ s].
Proof.
  revert cur. induction s as [|c' s IH]; intros cur Hc.
  - by rewrite (right_id_L [] (++)).
  - cbn [split_aux]. rewrite startswith_single by set_solver.
    rewrite IH by set_solver. by rewrite <-(assoc_L (++)).
Qed.

Lemma split_aux_sep c cur p rest :
  c ∉ p →
  split_aux [c] 0 cur (p ++ c :: rest)
  = (cur ++ p) :: split_aux [c] 0 [] rest.
Proof.
  revert cur. induction p as [|c' p IH]; intros cur Hc.
  - cbn [app split_aux startswith]. rewrite N.eqb_refl.
    by rewrite (right_id_L [] (++)).
  - cbn [app split_aux]. rewrite startswith_single by set_solver.
    rewrite IH by set_solver. by rewrite <-(assoc_L (++)).
Qed.

(** Splitting what has been joined gives the pieces back. *)
Lemma split_join c ps :
  ps ≠ [] → Forall (λ p, c ∉ p) ps → split [c] (join [c] ps) = ps.
Proof.
  intros Hne Hps. unfold split.
  induction Hps as [|p ps Hp Hps IH]; [done|].
  destruct ps as [|p' ps].
  - cbn [join]. by rewrite split_aux_single.
  - change (join [c] (p :: p' :: ps)) with (p ++ c :: join [c] (p' :: ps)).
    rewrite split_aux_sep by done. by rewrite IH.
Qed.

(** A text that ends with the separator ends with an empty piece. *)
Lemma split_aux_ends_empty c cur s :
  ∃ pre, split_aux [c] 0 cur (s ++ [c]) = pre ++ [[]].
Proof.
  revert cur. induction s as [|c' s IH]; intros cur.
  - exists [cur]. cbn [app split_aux startswith]. by rewrite N.eqb_refl.
  - cbn [app split_aux]. destruct (startswith [c] (c' :: s ++ [c])).
    + destruct (IH []) as [pre Hpre]. exists (cur :: pre).
      cbn [length Nat.sub]. by rewrite Hpre.
    + apply IH.
Qed.

End SplitFacts.

(** Strictly ascending lists with the same elements are equal. *)
Lemma ascending_unique (l k : list Z) :
  StronglySorted Z.lt l → StronglySorted Z.lt k →
  (∀ x, x ∈ l ↔ x ∈ k) → l = k.
Proof.
  intros Hl. revert k. induction Hl as [|x l Hl IH Hx]; intros k Hk Hlk.
  - destruct k as [|y k]; [done|]. specialize (Hlk y). set_solver.
  - destruct Hk as [|y k Hk Hy].
    { specialize (Hlk x). set_solver. }
    rewrite Forall_forall in Hx, Hy.
    assert (x = y) as <-.
    { assert (Hxk : x ∈ y :: k) by (apply Hlk; left).
      assert (Hyl : y ∈ x :: l) by (apply Hlk; left).
      apply elem_of_cons in Hxk as [?|Hxk]; [done|].
      apply elem_of_cons in Hyl as [?|Hyl]; [done|].
      specialize (Hx y Hyl). specialize (Hy x Hxk). lia. }
    f_equal. apply IH; [done|]. intros z. split; intros Hz.
    + assert (z ∈ x :: k) as [->|?]%elem_of_cons; [apply Hlk; by right| |done].
      specialize (Hx x Hz). lia.
    + assert (z ∈ x :: l) as [->|?]%elem_of_cons; [apply Hlk; by right| |done].
      specialize (Hy x Hz). lia.
Qed.

Lemma seqZ_ascending m n : StronglySorted Z.lt (seqZ m n).
Proof.
  destruct (decide (0 ≤ n)%Z) as [Hn|Hn]; [|rewrite seqZ_nil by lia; constructor].
  rewrite <-(Z2Nat.id n) by done. clear Hn. generalize (Z.to_nat n) as i.
  intros i. revert m. induction i as [|i IH]; intros m.
  - constructor.
  - rewrite seqZ_cons by lia. constructor.
    + replace (Z.pred (Z.of_nat (S i))) with (Z.of_nat i) by lia. apply IH.
    + apply Forall_seqZ. intros j Hj. lia.
Qed.

Section MoreSelection.
Context `{Interpreter}.

(** The result for a selection with one part that reads as a valid range
    [a-b] is the list of the indices a-1, ..., b-1. *)
Theorem single_range_selects (selection_str : str) max_num a b :
  44 ∉ selection_str →
  read_part selection_str = Range a b →
  (1 ≤ a ∧ a ≤ b ∧ b ≤ max_num)%Z →
  parse_selection selection_str max_num = seqZ (a - 1) (b - a + 1).
Proof.
  intros Hcomma Hread Hvalid. unfold parse_selection, split.
  change (lit ",") with [44]. rewrite split_aux_single by done.
  cbn [foldl app]. rewrite selection_step_union. unfold part_indices.
  rewrite Hread, bool_decide_true by done.
  apply ascending_unique.
  - apply sorted_distinct_ascending, NoDup_elements.
  - apply seqZ_ascending.
  - intros x. rewrite merge_sort_Permutation, elem_of_elements. set_solver.
Qed.

(** The result depends on the set of the parts only: neither the order of
    the parts nor a repetition of a part changes it. *)
Theorem selection_order_irrelevant (ps qs : list str) max_num :
  ps ≠ [] →
  Forall (λ p, 44 ∉ p) ps →
  (∀ p, p ∈ ps ↔ p ∈ qs) →
  parse_selection (join (lit ",") ps) max_num
  = parse_selection (join (lit ",") qs) max_num.
Proof.
  intros Hne Hps Heq.
  assert (Hqs : Forall (λ p : list N, 44 ∉ p) qs).
  { rewrite Forall_forall in Hps |- *. intros p Hp. by apply Hps, Heq. }
  assert (Hne' : qs ≠ []).
  { destruct ps as [|p ps]; [done|]. intros ->.
    by apply (not_elem_of_nil p), Heq; left. }
  unfold parse_selection. change (lit ",") with [44].
  rewrite !split_join, !selection_fold by done.
  do 2 f_equal. apply set_eq. intros i.
  rewrite !elem_of_union, !elem_of_union_list.
  split; (intros [?|(X & HX & Hi)]; [by left|right]);
    apply list_elem_of_fmap in HX as (p & -> & Hp);
    exists (part_indices max_num p); (split; [|done]);
    apply list_elem_of_fmap; exists p; (split; [done|]); by apply Heq.
Qed.

(** A part that, once trimmed, starts or ends with [-] selects nothing: a
    negative number is not a number of a command, and a range has both of
    its ends. *)
Theorem dash_at_an_end_selects_nothing max_num indices (part : str) :
  (∃ r, strip part = 45 :: r) ∨ (∃ r, strip part = r ++ [45]) →
  selection_step max_num indices part = indices.
Proof.
  intros Hdash. unfold selection_step.
  assert (Hin : 45 ∈ strip part).
  { destruct Hdash as [[r ->]|[r ->]]; set_solver. }
  change (ch "-") with 45. rewrite bool_decide_true by done.
  assert (mapM int (split (lit "-") (strip part)) = None) as ->; [|done].
  apply mapM_None_2. change (lit "-") with [45]. unfold split.
  destruct Hdash as [[r ->]|[r ->]].
  - cbn [split_aux startswith]. rewrite N.eqb_refl. cbn [andb].
    by apply Exists_cons_hd.
  - destruct (split_aux_ends_empty 45 [] r) as [pre ->].
    apply Exists_app. right. by apply Exists_cons_hd.
Qed.

End MoreSelection.

(** ** More on parsed responses *)

Section WindowFacts.
Implicit Types (s t p rest needle : list N).

Lemma startswith_take p s :
  startswith p s = true ↔ take (length p) s = p.
Proof.
  rewrite startswith_prefix. split.
  - intros [r ->]. by rewrite take_app_length.
  - intros Hp. exists (drop (length p) s).
    rewrite <-Hp at 1. by rewrite take_drop.
Qed.

Lemma startswith_length p s :
  startswith p s = true → (length p ≤ length s)%nat.
Proof.
  intros [r ->]%startswith_prefix. rewrite length_app. lia.
Qed.

(** Two texts that agree on a window agree on what starts inside it. *)
Lemma window_agree t n rest j m :
  (j + m ≤ n)%nat → (n ≤ length t)%nat →
  take m (drop j (take n t ++ rest)) = take m (drop j t).
Proof.
  intros Hjm Hn. rewrite drop_app_le by (rewrite length_take; lia).
  rewrite take_app_le by (rewrite length_drop, length_take; lia).
  replace n with (j + (n - j))%nat at 1 by lia.
  rewrite <-take_drop_commute, take_take. f_equal. lia.
Qed.

Lemma startswith_window p t n rest j :
  (j + length p ≤ n)%nat → (n ≤ length t)%nat →
  startswith p (drop j (take n t ++ rest)) = startswith p (drop j t).
Proof.
  intros Hj Hn.
  destruct (startswith p (drop j t)) eqn:E.
  - apply startswith_take. rewrite window_agree by done.
    by apply startswith_take.
  - destruct (startswith p (drop j (take n t ++ rest))) eqn:E'; [|done].
    apply startswith_take in E'. rewrite window_agree in E' by done.
    apply startswith_take in E'. congruence.
Qed.

Lemma startswith_app_r p s t :
  startswith p s = true → startswith p (s ++ t) = true.
Proof.
  rewrite !startswith_prefix. intros [r ->]. exists (r ++ t).
  by rewrite (assoc_L (++)).
Qed.

Lemma find_in_bounds needle t q :
  find needle t = Some q → (q + length needle ≤ length t)%nat.
Proof.
  intros [Hq Hlt]%find_Some.
  destruct (decide (q ≤ length t)%nat) as [Hle|Hgt].
  - apply startswith_length in Hq. rewrite length_drop in Hq. lia.
  - rewrite drop_ge in Hq by lia. destruct needle; [|done].
    specialize (Hlt 0%nat ltac:(lia)). done.
Qed.

(** There is no occurrence before the first occurrence. *)
Lemma find_take_first needle t q :
  needle ≠ [] → find needle t = Some q → find needle (take q t) = None.
Proof.
  intros Hne Hq. pose proof (find_in_bounds _ _ _ Hq) as Hb.
  apply find_Some in Hq as [_ Hlt]. apply find_None. intros j.
  destruct (startswith needle (drop j (take q t))) eqn:E; [|done].
  pose proof (startswith_length _ _ E) as Hlen.
  rewrite length_drop, length_take in Hlen.
  assert (0 < length needle)%nat by (destruct needle; simpl; [done|lia]).
  rewrite <-(right_id_L [] (++) (take q t)) in E.
  rewrite startswith_window in E by lia. rewrite Hlt in E by lia. done.
Qed.

Lemma find_None_strip needle s :
  find needle s = None → find needle (strip s) = None.
Proof.
  rewrite !find_None. intros Hs j.
  destruct (strip_sublist s) as (ws & ws' & Heq).
  destruct (startswith needle (drop j (strip s))) eqn:E; [|done].
  specialize (Hs (length ws + j)%nat).
  rewrite Heq, <-drop_drop, drop_app_length, drop_app in Hs.
  by rewrite startswith_app_r in Hs.
Qed.

Lemma re_search_None s :
  (∀ j, match_here (drop j s) = None) → re_search s = None.
Proof.
  intros Hs. destruct (re_search s) as [[q g]|] eqn:E; [|done].
  apply re_search_Some in E as [Hm _]. by rewrite Hs in Hm.
Qed.

(** With a block, the parse in terms of the first marker and the body. *)
Lemma parse_block text start body :
  re_search text = Some (start, body) →
  ∃ q, find fence_open text = Some q ∧ (q ≤ start)%nat
       ∧ parse_ai_response text = (strip (take q text), body_commands body).
Proof.
  intros Hre. unfold parse_ai_response. rewrite Hre.
  apply re_search_Some in Hre as [Hm _]. apply match_here_fence in Hm.
  destruct (find_le _ _ _ Hm) as (q & Hq & Hle).
  exists q. split_and!; [done..|].
  rewrite split_hd, Hq by apply fence_open_nonempty.
  rewrite filter_strip_fmap. f_equal. apply body_commands_strip.
Qed.

End WindowFacts.

(** Every command of a parse is ready to be run as it is: it is not empty,
    it has no space at either end (the [strip] of [execute_command] leaves
    it as it is), and it contains no line boundary; the explanation has no
    space at either end. *)
Theorem parsed_commands_are_clean (text : str) :
  strip (parse_ai_response text).1 = (parse_ai_response text).1
  ∧ Forall (λ cmd, cmd ≠ [] ∧ strip cmd = cmd
                   ∧ Forall (λ c, islinebreak c = false) cmd)
           (parse_ai_response text).2.
Proof.
  destruct (parse_ai_response_wf text) as [Hexpl Hcs]. split; [done|].
  eapply Forall_impl; [done|]. naive_solver.
Qed.

(** When a block is found, the explanation does not contain the marker
    [```bash]. *)
Theorem explanation_without_marker (text : str) :
  re_search text ≠ None →
  find fence_open (parse_ai_response text).1 = None.
Proof.
  intros Hre. destruct (re_search text) as [[start body]|] eqn:E; [|done].
  destruct (parse_block _ _ _ E) as (q & Hq & _ & ->). simpl.
  apply find_None_strip. by apply find_take_first.
Qed.

Local Ltac len_lia :=
  change (length block_open) with 8%nat in *;
  change (length block_close) with 4%nat in *;
  change (length fence_open) with 7%nat in *;
  lia.

Section FirstBlock.
Implicit Types (text rest body : list N).

(** The search sees the same first block when the text is cut after the
    closing fence of that block and continued in another way. *)
Lemma re_search_cut text start body rest :
  re_search text = Some (start, body) →
  let n := (start + length block_open + length body
            + length block_close)%nat in
  (n ≤ length text)%nat
  ∧ re_search (take n text ++ rest) = Some (start, body).
Proof.
  intros Hre n. apply re_search_Some in Hre as [Hm Hlt].
  apply match_here_Some in Hm as (Hopen & j & Hj & Hbody).
  pose proof (find_in_bounds _ _ _ Hj) as Hb.
  rewrite !length_drop in Hb.
  apply find_Some in Hj as [Hclose Hmin].
  assert (Hlen : length body = j).
  { rewrite Hbody, length_take, !length_drop. apply Nat.min_l.
    len_lia. }
  assert (Hn : (n ≤ length text)%nat).
  { pose proof (startswith_length _ _ Hclose) as Hc.
    rewrite !length_drop in Hc. unfold n. len_lia. }
  split; [done|]. apply re_search_Some. split.
  - apply match_here_Some. split.
    { rewrite startswith_window by (unfold n; len_lia). done. }
    exists j. split.
    + apply find_Some. split.
      * rewrite !drop_drop. rewrite !drop_drop in Hclose.
        rewrite startswith_window by (unfold n; len_lia). done.
      * intros j' Hj'. specialize (Hmin j' Hj').
        rewrite !drop_drop. rewrite !drop_drop in Hmin.
        rewrite startswith_window by (unfold n; len_lia). done.
    + rewrite Hbody, !drop_drop. symmetry.
      apply window_agree; [unfold n; len_lia|done].
  - intros j' Hj'. specialize (Hlt j' Hj'). unfold match_here in Hlt |- *.
    rewrite startswith_window by (unfold n; len_lia).
    destruct (startswith block_open (drop j' text)); [|done].
    exfalso. rewrite lazy_until_find in Hlt.
    destruct (find block_close (drop (length block_open) (drop j' text)))
      eqn:Hnone; [done|].
    rewrite find_None in Hnone. specialize (Hnone (start - j' + j)%nat).
    rewrite !drop_drop in Hnone, Hclose.
    replace (j' + (length block_open + (start - j' + j)))%nat
      with (start + (length block_open + j))%nat in Hnone by len_lia.
    congruence.
Qed.

(** Only the first block counts: the text after its closing fence has no
    influence on the result. *)
Theorem text_after_first_block_ignored text start body rest :
  re_search text = Some (start, body) →
  parse_ai_response
    (take (start + length block_open + length body + length block_close)
       text ++ rest)
  = parse_ai_response text.
Proof.
  intros Hre. destruct (re_search_cut text start body rest Hre) as [Hn Hcut].
  destruct (parse_block _ _ _ Hre) as (q & Hq & Hle & ->).
  destruct (parse_block _ _ _ Hcut) as (q' & Hq' & _ & ->).
  set (n := (start + length block_open + length body
             + length block_close)%nat) in *.
  assert (find fence_open (take n text ++ rest) = Some q) as Hq''.
  { apply find_Some in Hq as [Hat Hbefore]. apply find_Some. split.
    - rewrite startswith_window; [done| |done].
      unfold n. len_lia.
    - intros j Hj. rewrite startswith_window; [by apply Hbefore| |done].
      unfold n. len_lia. }
  assert (q' = q) as -> by congruence.
  f_equal. f_equal.
  rewrite take_app_le by (rewrite length_take; unfold n; len_lia).
  rewrite take_take. f_equal. unfold n. len_lia.
Qed.

Lemma no_block_in_empty_fence k :
  match_here (drop k (block_open ++ fence)) = None.
Proof.
  do 12 (destruct k as [|k]; [reflexivity|]). cbn [drop app block_open fence].
  by destruct k.
Qed.

(** A fence that is closed on the line after it is opened is not a block:
    the answer the system prompt asks for at the end of a task (a report
    followed by an empty [```bash] block) has no commands, and the fence
    stays in the explanation. *)
Theorem empty_fence_is_no_block (report : str) :
  find fence_open report = None →
  parse_ai_response (report ++ [10] ++ block_open ++ fence)
  = (strip (report ++ [10] ++ block_open ++ fence), []).
Proof.
  intros Hnone. unfold parse_ai_response.
  rewrite re_search_None; [done|]. intros j.
  destruct (match_here (drop j _)) eqn:E; [|done]. exfalso.
  destruct (decide (j ≤ length report)%nat) as [Hle|Hgt].
  - apply match_here_fence in E. rewrite drop_app_le in E by done.
    apply startswith_before in E; [|unfold fence_open; set_solver].
    rewrite find_None in Hnone. by rewrite Hnone in E.
  - rewrite drop_app_ge in E by lia.
    destruct (j - length report)%nat as [|k] eqn:Hk; [lia|].
    cbn [app drop] in E. by rewrite no_block_in_empty_fence in E.
Qed.

End FirstBlock.

(** ** More on the executor *)

Section ExecutorResults.
Context {E : Type} `{Host E}.
Implicit Types (command : list N) (w : world E).

(** The result of [execute_command] is never the empty string. *)
Theorem result_never_empty command w :
  (interp (execute_command command) w).2 ≠ [].
Proof.
  unfold execute_command.
  destruct (startswith (lit "cd ") (strip command)).
  - cbn [interp handle]. destruct (host_expanduser _ _) as [target|e]; [|done].
    cbn [interp handle]. destruct (resolve_dir _ _ _) as [d|e]; [|done].
    cbn [interp handle cwd env]. by destruct (getcwd_error _ _).
  - cbn [interp handle]. destruct (host_run _ _ _) as [e' r].
    destruct r as [stdout stderr| |e]; [|done..].
    cbn [interp]. by destruct (strip (strip stdout ++ [10] ++ strip stderr)).
Qed.

(** Only the branch of the directory change moves the process: a command
    that is handed to the shell leaves the working directory as it is,
    whatever the command does in its own process. *)
Theorem shell_command_keeps_cwd command w :
  startswith (lit "cd ") (strip command) = false →
  cwd (interp (execute_command command) w).1 = cwd w.
Proof.
  intros Hcd. unfold execute_command. rewrite Hcd. cbn [interp handle].
  destruct (host_run _ _ _) as [e' r]. by destruct r.
Qed.

(** What [main] prints without colour is output of a command that the shell
    has run to its end: the messages of the executor itself (directory
    changed, errors, timeout, no output) are printed green or red. *)
Theorem uncoloured_result_is_shell_output command w :
  output_style (interp (execute_command command) w).2 = dim →
  startswith (lit "cd ") (strip command) = false
  ∧ ∃ e' stdout stderr,
      host_run (env w) (cwd w)
        {| args := strip command; shell := true; text := true;
           capture_output := true; timeout := 30; stdin := DEVNULL |}
      = (e', Completed stdout stderr)
      ∧ (interp (execute_command command) w).2
        = strip (strip stdout ++ [10] ++ strip stderr).
Proof.
  unfold execute_command.
  destruct (startswith (lit "cd ") (strip command)).
  - cbn [interp handle]. destruct (host_expanduser _ _) as [target|e]; [|done].
    cbn [interp handle]. destruct (resolve_dir _ _ _) as [d|e]; [|done].
    cbn [interp handle cwd env]. by destruct (getcwd_error _ _).
  - cbn [interp handle]. destruct (host_run _ _ _) as [e' r] eqn:Hrun.
    destruct r as [stdout stderr| |e]; [|done..].
    cbn [interp snd]. intros Hdim. split; [done|].
    exists e', stdout, stderr. split; [done|].
    by destruct (strip (strip stdout ++ [10] ++ strip stderr)).
Qed.

(** For a directory change, the result is printed green exactly when
    [os.chdir] and the [os.getcwd] after it both succeeded, and red
    otherwise. *)
Theorem cd_result_style command w :
  startswith (lit "cd ") (strip command) = true →
  (output_style (interp (execute_command command) w).2 = green
   ∧ ∃ target d,
       host_expanduser (env w) (cd_target (strip command)) = Returned target
       ∧ resolve_dir (env w) (cwd w) target = Returned d
       ∧ getcwd_error (env w) d = None
       ∧ cwd (interp (execute_command command) w).1 = d)
  ∨ (output_style (interp (execute_command command) w).2 = red
     ∧ ¬ ∃ target d,
         host_expanduser (env w) (cd_target (strip command)) = Returned target
         ∧ resolve_dir (env w) (cwd w) target = Returned d
         ∧ getcwd_error (env w) d = None).
Proof.
  intros Hcd. unfold execute_command. rewrite Hcd. cbn [interp handle].
  destruct (host_expanduser _ _) as [target|e] eqn:Hexp.
  2:{ right. split; [done|]. by intros (? & ? & ? & _). }
  cbn [interp handle]. destruct (resolve_dir _ _ _) as [d|e] eqn:Hdir.
  2:{ right. split; [done|]. intros (? & ? & [= <-] & ? & _). congruence. }
  cbn [interp handle cwd env].
  destruct (getcwd_error _ _) as [e|] eqn:Hget.
  - right. split; [done|]. intros (? & ? & [= <-] & ? & ?). congruence.
  - left. split; [done|]. by exists target, d.
Qed.

End ExecutorResults.

Section Batches.
Context {E : Type} `{Interpreter} `{Config} `{Console} `{Host E}.
Implicit Types (command : list N) (w : world E).



(** After a directory change that succeeded, [log_event] works in the
    directory entered: the log file is opened from there, so that with a
    relative [LOG_DIR] that does not exist there nothing is written, the
    error is printed and the block of the command is kept; and when the
    file is opened, the entry is stamped with the directory entered, not
    with the directory in which the command was given. *)
Theorem successful_cd_logged_in_new_directory command w target d :
  startswith (lit "cd ") (strip command) = true →
  host_expanduser (env w) (cd_target (strip command)) = Returned target →
  resolve_dir (env w) (cwd w) target = Returned d →
  getcwd_error (env w) d = None →
  console_print (executing_markup command) = Returned () →
  console_print
    (output_markup (check_mark ++ lit " (Working directory changed to: "
                    ++ d ++ lit ")")) = Returned () →
  (∀ e1 err,
     host_open_append (env w) d (path_join LOG_DIR (lit "session_log.txt"))
     = (e1, Some err) →
     console_print (log_error_markup err) = Returned () →
     run_commands [command] w
     = ({| cwd := d; env := e1 |},
        Returned [output_block command
                    (check_mark ++ lit " (Working directory changed to: "
                     ++ d ++ lit ")")]))
  ∧ (∀ e1 e2 e3,
       host_open_append (env w) d (path_join LOG_DIR (lit "session_log.txt"))
       = (e1, None) →
       getcwd_error e1 d = None →
       host_write e1 d (path_join LOG_DIR (lit "session_log.txt"))
         (lit "[" ++ d ++ lit "] > " ++ command ++ [10]) = (e2, None) →
       host_write e2 d (path_join LOG_DIR (lit "session_log.txt"))
         ((check_mark ++ lit " (Working directory changed to: " ++ d
           ++ lit ")") ++ [10] ++ lit "---" ++ [10]) = (e3, None) →
       run_commands [command] w
       = ({| cwd := d; env := e3 |},
          Returned [output_block command
                      (check_mark ++ lit " (Working directory changed to: "
                       ++ d ++ lit ")")])).
Proof.
  intros Hcd Hexp Hdir Hget Hannounce Hprint.
  assert (Hexec : interp (execute_command command) w
                  = ({| cwd := d; env := env w |},
                     check_mark ++ lit " (Working directory changed to: "
                     ++ d ++ lit ")")).
  { unfold execute_command. rewrite Hcd.
    cbn [interp handle]. rewrite Hexp. cbn [interp handle]. rewrite Hdir.
    cbn [interp handle cwd env]. by rewrite Hget. }
  split.
  - intros e1 err Hopen Hreport. cbn [run_commands].
    rewrite Hannounce, Hexec, Hprint. unfold log_event. cbn [cwd env].
    by rewrite Hopen, Hreport.
  - intros e1 e2 e3 Hopen Hget' Hw1 Hw2. cbn [run_commands].
    rewrite Hannounce, Hexec, Hprint. unfold log_event. cbn [cwd env].
    by rewrite Hopen, Hget', Hw1, Hw2.
Qed.

End Batches.

(** ** More on the requests to the backend *)

Section OpenAIRequests.
Context `{Config}.

Lemma openai_messages_first_segments (h : list Turn) :
  Forall (λ t, parts t ≠ []) h →
  ∃ ms, mapM (λ t, pair (role_name (turn_role t)) <$> head (parts t)) h
        = Some ms
        ∧ (λ m : list N * list N, (m.1, [m.2])) <$> ms
          = (λ t, (role_name (turn_role t), take 1 (parts t))) <$> h.
Proof.
  induction 1 as [|t h Ht _ (ms & Hms & Hconv)].
  - by exists [].
  - destruct (parts t) as [|p ps] eqn:Hp; [done|].
    exists ((role_name (turn_role t), p) :: ms).
    split; [cbn [mapM]; by rewrite Hms, Hp|].
    rewrite !fmap_cons, Hconv, Hp. done.
Qed.

(** With the provider openai, building the request raises (an
    [IndexError]) exactly when some entry of the history has no text
    segment; otherwise the request carries, for every entry in order, its
    role and its first text segment, and no other segment. *)
Theorem openai_request_first_segments (h : list Turn) :
  API_PROVIDER = openai →
  ((∃ e, ai_request h = Raised e) ↔ Exists (λ t, parts t = []) h)
  ∧ ∀ r, ai_request h = Returned r →
         conversation r
         = (λ t, (role_name (turn_role t), take 1 (parts t))) <$> h.
Proof.
  intros Hp. unfold ai_request. rewrite Hp.
  destruct (decide (Exists (λ t, parts t = []) h)) as [Hex|Hall].
  - assert (mapM (λ t, pair (role_name (turn_role t)) <$> head (parts t)) h
            = None) as ->.
    { apply mapM_None_2. eapply Exists_impl; [done|].
      intros t Ht. simpl. by rewrite Ht. }
    split; [|done]. split; [done|]. eauto.
  - assert (Hne : Forall (λ t, parts t ≠ []) h).
    { apply Forall_forall. intros t Ht Hpt. apply Hall, Exists_exists. eauto. }
    destruct (openai_messages_first_segments h Hne) as (ms & -> & Hconv).
    split.
    + split; [by intros [e ?]|done].
    + by intros r [= <-].
Qed.

End OpenAIRequests.

(** ** The environment probe *)

Section Probe.
Context `{Interpreter}.
Implicit Types (lines before after : list (try (list N))).

(** No line that has been read starts with [ID=]. *)
Local Abbreviation without_id lines :=
  (Forall (λ l : try (list N),
     ∃ line, l = Returned line ∧ startswith (lit "ID=") line = false) lines).

Lemma detect_in_lines_skip before rest :
  without_id before →
  detect_in_lines (before ++ rest) = detect_in_lines rest.
Proof.
  induction 1 as [|l before (line & -> & Hline) _ IH]; [done|].
  cbn [app detect_in_lines]. by rewrite Hline.
Qed.

Lemma strip_id_line r :
  strip (lit "ID=" ++ r) = lit "ID" ++ 61 :: rstrip r.
Proof.
  unfold strip. change (lit "ID=" ++ r) with (73 :: 68 :: 61 :: r).
  cbn [rstrip]. by destruct (rstrip r).
Qed.

(** The first line that starts with [ID=] decides: the result is the rest
    of that line, without the spaces and the line end at its end and
    without the double quotes at its ends, in lower case.  Lines before it
    (such as [VERSION_ID=...]) and lines after it do not count. *)
Theorem detect_distro_reads_first_id before r after :
  without_id before →
  61 ∉ r →
  detect_distro (Returned (before ++ Returned (lit "ID=" ++ r) :: after))
  = lower (strip_chars [34] (rstrip r)).
Proof.
  intros Hbefore Hr. unfold detect_distro.
  rewrite detect_in_lines_skip by done. cbn [detect_in_lines].
  rewrite startswith_app, strip_id_line.
  change (lit "=") with [61]. unfold split.
  rewrite split_aux_sep by (change (lit "ID") with [73; 68]; set_solver).
  rewrite split_aux_single; [done|].
  destruct (rstrip_split r) as (ws & Heq & _). rewrite Heq in Hr. set_solver.
Qed.

(** Without a line that starts with [ID=] before the end of the file, or
    before the first read that fails, the result is [unknown]; so it is when
    the file cannot be opened. *)
Theorem detect_distro_unknown before rest :
  without_id before →
  rest = [] ∨ (∃ e after, rest = Raised e :: after) →
  detect_distro (Returned (before ++ rest)) = unknown
  ∧ ∀ e, detect_distro (Raised e) = unknown.
Proof.
  intros Hbefore Hrest. split; [|done]. unfold detect_distro.
  rewrite detect_in_lines_skip by done.
  by destruct Hrest as [->|(e & after & ->)].
Qed.

End Probe.

(** ** Start-up *)

Section StartUp.
Context `{Interpreter}.

(** What the module needs of one provider to be loaded with it. *)
Lemma configured b fields provider_ installed MODEL_NAME LOG_DIR p key model dir :
  match api_key b fields (key_name provider_) with
  | None => Uncaught
  | Some API_KEY =>
      if negb (truthy API_KEY) then Exit1
      else if negb installed then Exit1
      else if makedirs b LOG_DIR
           then Started provider_ API_KEY MODEL_NAME LOG_DIR
           else Uncaught
  end = Started p key model dir →
  p = provider_ ∧ model = MODEL_NAME ∧ dir = LOG_DIR
  ∧ api_key b fields (key_name p) = Some key
  ∧ truthy key = true ∧ installed = true ∧ makedirs b dir = true.
Proof.
  destruct (api_key b fields (key_name provider_)) as [API_KEY|] eqn:Hkey;
    [|done].
  destruct (truthy API_KEY) eqn:Htrue; [|done]. destruct installed; [|done].
  destruct (makedirs b LOG_DIR) eqn:Hdir; [|done].
  by intros [= <- <- <- <-].
Qed.

(** The module is loaded only with one of the two providers: the
    configuration is an object whose [api_provider] (gemini when the key is
    missing) is a string that reads gemini or openai in lower case; the API
    key is a true value; the client library of that provider could be
    imported; and the directory of the log exists. *)
Theorem startup_gate b p key model dir :
  startup b = Started p key model dir →
  ∃ fields v,
    config_file b = Loaded (JObject fields)
    ∧ default (JString (lit "gemini")) (fields !! lit "api_provider")
      = JString v
    ∧ lower v = provider_name p
    ∧ truthy key = true
    ∧ (match p with gemini => genai b | openai => OpenAI b end) = true
    ∧ makedirs b dir = true.
Proof.
  unfold startup. destruct (config_file b) as [[s|fields|t]| | |]; try done.
  destruct (default _ (fields !! lit "api_provider")) as [v| |] eqn:Hv;
    try done.
  intros Hs. exists fields, v. split; [done|]. split; [done|].
  case_bool_decide as Hg; [|case_bool_decide as Ho; [|done]];
    apply configured in Hs as (-> & _ & _ & _ & ? & ? & ?); done.
Qed.

(** A key in the environment goes before the configuration file: when the
    variable of the provider is set and not empty, its value is the API
    key, whatever the file holds under [api_keys]. *)
Theorem environment_key_first b p key model dir c k :
  startup b = Started p key model dir →
  getenv b (key_name p) = Some (c :: k) →
  key = JString (c :: k).
Proof.
  unfold startup. destruct (config_file b) as [[s|fields|t]| | |]; try done.
  destruct (default _ (fields !! lit "api_provider")) as [v| |]; try done.
  intros Hs Henv.
  assert (api_key b fields (key_name p) = Some key) as Hkey.
  { case_bool_decide as Hg; [|case_bool_decide as Ho; [|done]];
      by apply configured in Hs as (_ & _ & _ & ? & _). }
  unfold api_key in Hkey. rewrite Henv in Hkey. congruence.
Qed.

End StartUp.

(** ** The properties above at inputs *)

Lemma backend_called_after_user_entry_witness :
  @reachable _ ascii_interpreter toy_config markup_console toy_host asking
  ∧ at_phase asking = AIWorking
  ∧ ∃ content, last (chat_history asking) = Some (user_turn content).
Proof.
  assert (Hreach : @reachable _ ascii_interpreter toy_config markup_console
                     toy_host asking)
    by (exists toy_world, [Typed (Some (lit "where am I?"))]; reflexivity).
  split_and!; [exact Hreach|reflexivity|].
  exact (@backend_called_after_user_entry _ ascii_interpreter toy_config
           markup_console toy_host asking Hreach eq_refl).
Defined.

Lemma decision_on_last_model_entry_witness :
  @reachable _ ascii_interpreter toy_config markup_console toy_host deciding
  ∧ at_phase deciding = AwaitingUserDecision [lit "ls -la"; lit "pwd"]
  ∧ [lit "ls -la"; lit "pwd"] ≠ []
  ∧ ∃ text, last (chat_history deciding) = Some (model_turn text)
            ∧ [lit "ls -la"; lit "pwd"] = (parse_ai_response text).2.
Proof.
  assert (Hreach : @reachable _ ascii_interpreter toy_config markup_console
                     toy_host deciding)
    by (exists toy_world, [Typed (Some (lit "where am I?"));
                           Answered asking_request (Returned scenario3)];
        reflexivity).
  split_and!; [exact Hreach|reflexivity|..];
    apply (@decision_on_last_model_entry _ ascii_interpreter toy_config
             markup_console toy_host deciding [lit "ls -la"; lit "pwd"]
             Hreach eq_refl).
Defined.

Lemma host_changes_only_on_approval_witness :
  @step _ ascii_interpreter toy_config markup_console toy_host deciding
    (Typed (Some (lit "y"))) = Some decided
  ∧ host decided ≠ host deciding
  ∧ ∃ commands line,
      at_phase deciding = AwaitingUserDecision commands
      ∧ Typed (Some (lit "y")) = Typed (Some line)
      ∧ (@lower ascii_interpreter (prompt_ask (Some (lit "y")) line) = lit "y"
         ∨ @lower ascii_interpreter (prompt_ask (Some (lit "y")) line)
           = lit "yes"
         ∨ @parse_selection ascii_interpreter
             (@lower ascii_interpreter (prompt_ask (Some (lit "y")) line))
             (Z.of_nat (length commands)) ≠ []).
Proof.
  assert (Hstep : @step _ ascii_interpreter toy_config markup_console toy_host
                    deciding (Typed (Some (lit "y"))) = Some decided)
    by reflexivity.
  assert (Hhost : host decided ≠ host deciding) by discriminate.
  split_and!; [exact Hstep|exact Hhost|].
  exact (@host_changes_only_on_approval _ ascii_interpreter toy_config
           markup_console toy_host deciding (Typed (Some (lit "y"))) decided
           Hstep Hhost).
Defined.


Lemma single_range_selects_witness :
  (44 ∉ lit "2-4")
  ∧ @read_part ascii_interpreter (lit "2-4") = Range 2 4
  ∧ (1 ≤ 2 ∧ 2 ≤ 4 ∧ 4 ≤ 5)%Z
  ∧ @parse_selection ascii_interpreter (lit "2-4") 5 = seqZ (2 - 1) (4 - 2 + 1).
Proof.
  assert (H1 : 44 ∉ lit "2-4") by (vm_compute; set_solver).
  assert (H2 : @read_part ascii_interpreter (lit "2-4") = Range 2 4)
    by reflexivity.
  assert (H3 : (1 ≤ 2 ∧ 2 ≤ 4 ∧ 4 ≤ 5)%Z) by lia.
  split_and!; [exact H1|exact H2|lia..|].
  exact (@single_range_selects ascii_interpreter (lit "2-4") 5 2 4 H1 H2 H3).
Defined.

Lemma selection_order_irrelevant_witness :
  [lit "3"; lit "1-2"] ≠ []
  ∧ Forall (λ p, 44 ∉ p) [lit "3"; lit "1-2"]
  ∧ (∀ p, p ∈ [lit "3"; lit "1-2"] ↔ p ∈ [lit "1-2"; lit "3"; lit "3"])
  ∧ @parse_selection ascii_interpreter
      (join (lit ",") [lit "3"; lit "1-2"]) 5
    = @parse_selection ascii_interpreter
        (join (lit ",") [lit "1-2"; lit "3"; lit "3"]) 5.
Proof.
  assert (H1 : [lit "3"; lit "1-2"] ≠ []) by discriminate.
  assert (H2 : Forall (λ p : list N, 44 ∉ p) [lit "3"; lit "1-2"])
    by (vm_compute; repeat constructor; set_solver).
  assert (H3 : ∀ p, p ∈ [lit "3"; lit "1-2"]
                    ↔ p ∈ [lit "1-2"; lit "3"; lit "3"]) by set_solver.
  split_and!; [exact H1|exact H2|exact H3|].
  exact (@selection_order_irrelevant ascii_interpreter _ _ 5 H1 H2 H3).
Defined.

Lemma dash_at_an_end_selects_nothing_witness :
  ((∃ r, strip (lit " -3") = 45 :: r) ∨ (∃ r, strip (lit " -3") = r ++ [45]))
  ∧ @selection_step ascii_interpreter 5 {[ 0%Z ]} (lit " -3") = {[ 0%Z ]}.
Proof.
  assert (H1 : (∃ r, strip (lit " -3") = 45 :: r)
               ∨ (∃ r, strip (lit " -3") = r ++ [45]))
    by (left; by exists [51]).
  split; [exact H1|].
  exact (@dash_at_an_end_selects_nothing ascii_interpreter 5 {[ 0%Z ]}
           (lit " -3") H1).
Defined.

Lemma explanation_without_marker_witness :
  re_search scenario3 ≠ None
  ∧ find fence_open (parse_ai_response scenario3).1 = None.
Proof.
  assert (H1 : re_search scenario3 ≠ None) by discriminate.
  split; [exact H1|]. exact (explanation_without_marker scenario3 H1).
Defined.

Lemma text_after_first_block_ignored_witness :
  re_search scenario3 = Some (6%nat, lit "ls -la" ++ [10] ++ lit "pwd")
  ∧ parse_ai_response
      (take (6 + length block_open
             + length (lit "ls -la" ++ [10] ++ lit "pwd")
             + length block_close) scenario3 ++ second_block)
    = parse_ai_response scenario3.
Proof.
  assert (H1 : re_search scenario3
               = Some (6%nat, lit "ls -la" ++ [10] ++ lit "pwd"))
    by reflexivity.
  split; [exact H1|].
  exact (text_after_first_block_ignored scenario3 6
           (lit "ls -la" ++ [10] ++ lit "pwd") second_block H1).
Defined.

Lemma empty_fence_is_no_block_witness :
  find fence_open (lit "Done.") = None
  ∧ parse_ai_response (lit "Done." ++ [10] ++ block_open ++ fence)
    = (strip (lit "Done." ++ [10] ++ block_open ++ fence), []).
Proof.
  assert (H1 : find fence_open (lit "Done.") = None) by reflexivity.
  split; [exact H1|]. exact (empty_fence_is_no_block (lit "Done.") H1).
Defined.

Lemma shell_command_keeps_cwd_witness :
  startswith (lit "cd ") (strip (lit "pwd")) = false
  ∧ cwd (@interp _ toy_host _ (execute_command (lit "pwd")) toy_world).1
    = cwd toy_world.
Proof.
  split; [reflexivity|].
  exact (@shell_command_keeps_cwd _ toy_host (lit "pwd") toy_world eq_refl).
Defined.

Lemma uncoloured_result_is_shell_output_witness :
  output_style
    (@interp _ echo_host _ (execute_command (lit "ls")) toy_world).2 = dim
  ∧ startswith (lit "cd ") (strip (lit "ls")) = false
  ∧ ∃ e' stdout stderr,
      @host_run _ echo_host (env toy_world) (cwd toy_world)
        {| args := strip (lit "ls"); shell := true; text := true;
           capture_output := true; timeout := 30; stdin := DEVNULL |}
      = (e', Completed stdout stderr)
      ∧ (@interp _ echo_host _ (execute_command (lit "ls")) toy_world).2
        = strip (strip stdout ++ [10] ++ strip stderr).
Proof.
  split; [reflexivity|].
  exact (@uncoloured_result_is_shell_output _ echo_host (lit "ls") toy_world
           eq_refl).
Defined.

Lemma cd_result_style_witness :
  startswith (lit "cd ") (strip (lit "cd /tmp")) = true
  ∧ output_style
      (@interp _ toy_host _ (execute_command (lit "cd /tmp")) toy_world).2
    = green
  ∧ output_style
      (@interp _ toy_host _ (execute_command cd_nonexistent) toy_world).2
    = red.
Proof.
  split; [reflexivity|].
  destruct (@cd_result_style _ toy_host (lit "cd /tmp") toy_world eq_refl)
    as [[Hgreen _]|[Hred _]]; [|discriminate Hred].
  split; [exact Hgreen|].
  destruct (@cd_result_style _ toy_host cd_nonexistent toy_world eq_refl)
    as [[Hgreen' _]|[Hred _]]; [discriminate Hgreen'|exact Hred].
Defined.

Lemma successful_cd_logged_in_new_directory_witness :
  startswith (lit "cd ") (strip (lit "cd /tmp")) = true
  ∧ @host_expanduser _ echo_host (env toy_world)
      (cd_target (strip (lit "cd /tmp"))) = Returned (lit "/tmp")
  ∧ @resolve_dir _ echo_host (env toy_world) (cwd toy_world) (lit "/tmp")
    = Returned (lit "/tmp")
  ∧ @getcwd_error _ echo_host (env toy_world) (lit "/tmp") = None
  ∧ @console_print markup_console (executing_markup (lit "cd /tmp"))
    = Returned ()
  ∧ @console_print markup_console (output_markup entered_tmp) = Returned ()
  ∧ @run_commands _ toy_config markup_console echo_host [lit "cd /tmp"]
      toy_world
    = ({| cwd := lit "/tmp"; env := [] |},
       Returned [output_block (lit "cd /tmp") entered_tmp])
  ∧ @run_commands _ var_log_config markup_console echo_host [lit "cd /tmp"]
      toy_world
    = ({| cwd := lit "/tmp";
          env := [lit "[/tmp] > cd /tmp" ++ [10];
                  entered_tmp ++ [10] ++ lit "---" ++ [10]] |},
       Returned [output_block (lit "cd /tmp") entered_tmp]).
Proof.
  assert (H5 : @console_print markup_console
                 (executing_markup (lit "cd /tmp")) = Returned ())
    by reflexivity.
  assert (H6 : @console_print markup_console (output_markup entered_tmp)
               = Returned ()) by reflexivity.
  split_and!; [reflexivity..|exact H5|exact H6| |].
  - exact (proj1 (@successful_cd_logged_in_new_directory _ toy_config
                    markup_console echo_host (lit "cd /tmp") toy_world
                    (lit "/tmp") (lit "/tmp") eq_refl eq_refl eq_refl
                    eq_refl H5 H6) _ _ eq_refl eq_refl).
  - exact (proj2 (@successful_cd_logged_in_new_directory _ var_log_config
                    markup_console echo_host (lit "cd /tmp") toy_world
                    (lit "/tmp") (lit "/tmp") eq_refl eq_refl eq_refl
                    eq_refl H5 H6) _ _ _ eq_refl eq_refl eq_refl eq_refl).
Defined.

Lemma openai_request_first_segments_witness :
  @API_PROVIDER toy_config = openai
  ∧ ((∃ e, @ai_request toy_config asked = Raised e)
     ↔ Exists (λ t, parts t = []) asked)
  ∧ ∀ r, @ai_request toy_config asked = Returned r →
         conversation r
         = (λ t, (role_name (turn_role t), take 1 (parts t))) <$> asked.
Proof.
  split; [reflexivity|].
  exact (@openai_request_first_segments toy_config asked eq_refl).
Defined.

Lemma detect_distro_reads_first_id_witness :
  Forall (λ l : try (list N),
     ∃ line, l = Returned line ∧ startswith (lit "ID=") line = false)
    (take 2 debian_release)
  ∧ (61 ∉ [34] ++ lit "Debian" ++ [34; 10])
  ∧ @detect_distro ascii_interpreter (Returned debian_release) = lit "debian".
Proof.
  assert (H1 : Forall (λ l : try (list N),
     ∃ line, l = Returned line ∧ startswith (lit "ID=") line = false)
    (take 2 debian_release))
    by (repeat constructor; by eexists).
  assert (H2 : 61 ∉ [34] ++ lit "Debian" ++ [34; 10])
    by (vm_compute; set_solver).
  split_and!; [exact H1|exact H2|].
  exact (@detect_distro_reads_first_id ascii_interpreter
           (take 2 debian_release) ([34] ++ lit "Debian" ++ [34; 10])
           [Returned (lit "ID=other" ++ [10])] H1 H2).
Defined.

Lemma detect_distro_unknown_witness :
  Forall (λ l : try (list N),
     ∃ line, l = Returned line ∧ startswith (lit "ID=") line = false)
    (take 2 debian_release)
  ∧ @detect_distro ascii_interpreter
      (Returned (take 2 debian_release
                 ++ Raised (lit "decode error") :: drop 2 debian_release))
    = unknown.
Proof.
  assert (H1 : Forall (λ l : try (list N),
     ∃ line, l = Returned line ∧ startswith (lit "ID=") line = false)
    (take 2 debian_release))
    by (repeat constructor; by eexists).
  split; [exact H1|].
  apply (@detect_distro_unknown ascii_interpreter (take 2 debian_release)
           (Raised (lit "decode error") :: drop 2 debian_release) H1).
  right. by eexists _, _.
Defined.

Lemma startup_gate_witness :
  @startup ascii_interpreter example_boot
  = Started openai (JString (lit "sk-env"))
      (JString (lit "gemini-2.5-flash")) (JString (lit "logs"))
  ∧ ∃ fields v,
      config_file example_boot = Loaded (JObject fields)
      ∧ default (JString (lit "gemini")) (fields !! lit "api_provider")
        = JString v
      ∧ @lower ascii_interpreter v = provider_name openai
      ∧ truthy (JString (lit "sk-env")) = true
      ∧ OpenAI example_boot = true
      ∧ makedirs example_boot (JString (lit "logs")) = true.
Proof.
  assert (H1 : @startup ascii_interpreter example_boot
    = Started openai (JString (lit "sk-env"))
        (JString (lit "gemini-2.5-flash")) (JString (lit "logs")))
    by (vm_compute; reflexivity).
  split; [exact H1|].
  exact (@startup_gate ascii_interpreter example_boot _ _ _ _ H1).
Defined.

Lemma environment_key_first_witness :
  @startup ascii_interpreter example_boot
  = Started openai (JString (lit "sk-env"))
      (JString (lit "gemini-2.5-flash")) (JString (lit "logs"))
  ∧ getenv example_boot (key_name openai) = Some (lit "sk-env")
  ∧ JString (lit "sk-env") = JString (lit "sk-env").
Proof.
  assert (H1 : @startup ascii_interpreter example_boot
    = Started openai (JString (lit "sk-env"))
        (JString (lit "gemini-2.5-flash")) (JString (lit "logs")))
    by (vm_compute; reflexivity).
  assert (H2 : getenv example_boot (key_name openai)
               = Some (115 :: lit "k-env")) by reflexivity.
  split_and!; [exact H1|exact H2|].
  exact (@environment_key_first ascii_interpreter example_boot _ _ _ _ _ _
           H1 H2).
Defined.

Lemma cd_never_calls_shell_witness :
  startswith (lit "cd ") (strip (lit "cd /tmp && ls")) = true
  ∧ ¬ calls_shell (execute_command (lit "cd /tmp && ls")).
Proof.
  split; [reflexivity|].
  exact (cd_never_calls_shell (lit "cd /tmp && ls") eq_refl).
Defined.

Lemma cd_branch_has_argument_witness :
  startswith (lit "cd ") (strip (lit " cd  ~ ")) = true
  ∧ cd_target (strip (lit " cd  ~ ")) = strip (drop 3 (strip (lit " cd  ~ ")))
  ∧ strip (drop 3 (strip (lit " cd  ~ "))) ≠ [].
Proof.
  split; [reflexivity|].
  exact (cd_branch_has_argument (lit " cd  ~ ") eq_refl).
Defined.

Lemma cd_success_witness :
  startswith (lit "cd ") (strip (lit "cd ~")) = true
  ∧ @host_expanduser _ toy_host (env toy_world)
      (cd_target (strip (lit "cd ~"))) = Returned (lit "/root")
  ∧ @resolve_dir _ toy_host (env toy_world) (cwd toy_world) (lit "/root")
    = Returned (lit "/root")
  ∧ @getcwd_error _ toy_host (env toy_world) (lit "/root") = None
  ∧ @interp _ toy_host _ (execute_command (lit "cd ~")) toy_world
    = ({| cwd := lit "/root"; env := env toy_world |},
       check_mark ++ lit " (Working directory changed to: " ++ lit "/root"
       ++ lit ")").
Proof.
  split_and!; [reflexivity..|].
  exact (@cd_success _ toy_host (lit "cd ~") toy_world (lit "/root")
           (lit "/root") eq_refl eq_refl eq_refl eq_refl).
Defined.
